(* ===== verification/_CoqProject ===== *)
-Q . S2P
Prelude.v
GoRuntime.v
ReaderAt.v
BytesView.v
StringsView.v
Consumer.v
ConsumerSpec.v
Concurrency.v
Goroutines.v
