(* ===== verification/Prelude.v ===== *)
(** * A verification of nightlyone/views: sized, read-only views and a consumer

    ** The program

    The Go package [views] (three source files) turns an in-memory buffer
    into an [io.ReaderAt] that also knows its size, and turns any such
    reader into a sequential, rewindable, closeable [io.Reader]:

    - [src/consumer.go] declares the interface [SizeReaderAt]
      ([io.ReaderAt] plus [Size() int64]), the error value [errClosed],
      and the [Consumer] struct (fields [r], [i], [limit], [closed]) with
      its methods [NewConsumer], [Read], [Reset], [Size], [Rewind] and
      [Close].  [Close] closes the underlying reader when that reader
      also implements [io.Closer] (a run-time type assertion).
    - [src/bytes/view.go] and [src/strings/view.go] declare two
      implementations of [SizeReaderAt]: a [View] over a [[]byte] and a
      [View] over a [string], each with [NewView], [ReadAt], [Size] and its
      own [errInvalidOffset] value.

    The views are immutable; the consumer is a small state machine whose
    state is its cursor [i], its cached [limit], its [closed] flag and the
    reader it is bound to.  The consumer only ever talks to its reader
    through [ReadAt], [Size] and the optional [Close].

    ** Files of this development (in dependency order)

    - [Prelude] (this file): the scope [views_scope], Go's [int64] range
      and two's-complement wrap-around ([int64_wrap]), the hint database
      [views], the tactic [views_arith], and the list and integer lemmas
      the components share.
    - [GoRuntime]: the pieces of Go's runtime and standard library that the
      sources call: error values ([io.EOF], each [errors.New] value with
      its own identity), the builtin [copy],
      run-time panics as the monad [go] ([Ret] or [Panic], with stdpp's
      [MRet]/[MBind], and [go_spec P m]: [m] returns a value satisfying
      [P]), and the checked slice expressions [b[off:]] and [s[off:]]
      ([go_slice_from], [go_string_slice_from]), which panic out of range.
      They are modelled from the Go language specification, not from this
      repository.
    - [ReaderAt]: the interface [SizeReaderAt] as a type class
      ([ReadAt], [Size]; [ReadAt] returns in [go], since a Go call may
      panic), the optional capability [io.Closer] as the class
      [MaybeCloser], the abstract contract of a positioned read
      ([ReadAtSpec], an inductive relation with one rule per outcome of
      the spec's section 4.1) and the class [SizeReaderAtOk] of readers
      that meet the contract over fixed contents (in particular, never
      panic).  The consumer's
      theorems are proved against these classes only.
    - [BytesView]: [Module BytesView], the [[]byte] view; its [ReadAt] is
      proved on every branch, proved to refine [ReadAtSpec], and is an
      instance of [SizeReaderAtOk].
    - [StringsView]: [Module StringsView], the [string] view, and the
      theorem that it behaves exactly like the byte view over the bytes
      of the string, up to the identity of the two [errInvalidOffset]
      values.
    - [Consumer]: [Module Consumer], the struct as a [Record] and one
      definition per method; operations gathered in a step function
      [step] over an [Op] type, runs of operations, reachability from
      [NewConsumer] as an inductive predicate, and the invariant
      [0 <= i <= limit = Size r] preserved by every operation, so that the
      [int64] addition [c.i += int64(n)] never wraps, and reading with
      non-empty buffers reaches [io.EOF].
    - [ConsumerSpec]: the abstract stream a consumer promises (contents,
      position, closed flag), a forward simulation proving that the
      consumer refines it operation by operation and along whole runs
      ([arun], by induction on the run), and the consequences:
      draining the consumer in a loop terminates with [io.EOF] after
      delivering exactly the reader's contents, [Rewind] replays them,
      [Reset] rebinds even a closed consumer.
    - [Concurrency]: spec section 5.  [Consumer.Read] cut into the
      statements a goroutine executes ([tstep] over program points [Pc]:
      the test of [c.closed], the call [c.r.ReadAt(p, c.i)], the load and
      the store of the non-atomic [c.i += int64(n)]), a scheduler
      ([sched_step], [exec]) interleaving goroutines on one shared
      consumer, and the invariant of a pool of racing [Read]s
      ([race_inv]: a per-goroutine condition against the shared cursor,
      preserved by every step of every goroutine).  The scheduler is generic ([gsched_step], [gexec]: a pool of
      goroutines on one shared state) and [exec] is its instance for
      goroutines running [Read].
    - [Goroutines]: the other methods that change state cut the same way,
      [Close] ([cstep] over [ClosePc]), [Rewind] ([rwstep]) and [Reset]
      ([rsstep], its four stores in source order), and goroutines
      running any method on one consumer ([Goroutine], [gostep]).

    ** Modelling choices

    - A Go [[]byte] is a [list byte] ([Corelib.Init.Byte.byte]); a Go
      [string] is a Rocq [String.string], whose characters are 8-bit
      [ascii] values, so Go's [len] is its length in bytes.
    - Go's [int] and [int64] are [Z].  The only arithmetic in the code is
      [c.i += int64(n)]; it is written with [int64_wrap], and the theorems
      show the wrap is never taken.  [int64(len(b))] cannot wrap because a
      Go slice or string is never longer than [MaxInt]; the readers' class
      records this as [Size r <= int64_max].
    - A method call on [*Consumer] takes the consumer and returns the new
      consumer together with the Go results, in the monad [go] when the
      method calls [ReadAt] ([Read], hence [step], [run] and the drain
      loop), so that a panic of the reader propagates as in Go.  [ReadAt] writes into the
      caller's slice [p]; the model returns the new contents of [p] in a
      [ReadResult] with [n] and [err] ([option error], [None] is [nil]).
    - [Close]'s type assertion [c.r.(io.Closer)] is the class
      [MaybeCloser]: [as_closer r = None] when the reader is not a
      closer, and [Some (r', e)] when closing it returns [e] and leaves
      the reader in state [r'].
    - There is no fuel in the components; the drain loop of
      [ConsumerSpec] is a client with fuel, and its termination theorem
      states the fuel that suffices ([fuel * k > limit - i] for a [k]-byte
      buffer, [k > 0]: each read but the last delivers [k] bytes), so it
      is a real termination result, not a partial-correctness one.  The
      liveness theorem needs no fuel: [limit - i + 1] reads with non-empty
      buffers suffice, since each read that does not reach the end
      delivers at least one byte.

    ** What the theorems show

    - Views ([BytesView], [StringsView]): [ReadAt] on each of its four
      branches (invalid offset, empty read at the end, full read, short
      read at the end), errors included; its refinement of [ReadAtSpec];
      the [io.ReaderAt] rule that a short count comes with an error;
      safety: the guards keep the slice expressions in bounds, so neither
      view panics; the string view equals the byte view over its bytes,
      up to the identity of [errInvalidOffset].
    - Consumer ([Consumer]): [Read] after [Close] fails without effect;
      a second [Close] fails; [Close] propagates the reader's error;
      [Reset] revives any consumer; the invariant holds after every
      operation and in every reachable state; [c.i += int64(n)] never
      wraps; after a sequence of reads the cursor is the sum of the counts;
      reading with non-empty buffers reaches [io.EOF] (liveness); a
      reachable consumer's [Read] fails only with [io.EOF] or
      [errClosed], never with [errInvalidOffset].
    - Contract ([ConsumerSpec]): the forward simulation of the abstract
      stream, per step and per run; termination and contents of the
      read-until-error loop; replay after [Rewind]; draining after
      [Reset]; the loop over a string view (an example).
    - Concurrency ([Concurrency]), for every consumer and buffers: two
      [Read]s in lockstep read at the same offset and lose a cursor
      update; two [Read]s that both call [ReadAt] before updating the
      cursor add both counts, which can push it past the limit, after
      which [Read] fails with [errInvalidOffset]; under every schedule,
      racing [Read]s keep the cursor between its start and the start
      plus their total buffer space, without wrap-around (an invariant
      by induction on the schedule).
    - Goroutines ([Goroutines]), for every consumer: two racing [Close]s
      both succeed and close the reader twice, where serialised the
      second fails with [errClosed]; a [Read] racing [Rewind] undoes it;
      a [Read] racing [Reset] reads the new reader at the old cursor.
    - The race theorems fix the schedule that exhibits the race (it is
      the point of the theorem) and quantify over the consumer, the
      readers and the buffers; the invariant quantifies over schedules.

    ** Further work

    - Nothing of the sources is left to model (see below); the races
      could be characterised over all schedules (which interleavings
      lose an update), beyond the invariant that bounds them.

    ** Not modelled

    The Go memory model: interleavings are sequentially consistent at the
    granularity of statements, while Go gives racy programs weaker
    guarantees (the race theorems show behaviours that Go allows, not all
    of them).  Panics other than those of slicing (the only operation of
    the sources that can panic).  Implementations of [io.Closer]: no
    reader of this repository has a [Close] method, so the consumer's
    [Close] is proved against the abstract [MaybeCloser] contract only.
    The package and import lines and the comments of the sources have
    nothing to model.  One consumer per goroutine needs no model of its
    own: views are immutable values and each consumer is a separate
    value, so such goroutines cannot interfere here. *)

From stdpp Require Export base list decidable numbers.
From Stdlib Require Export ZArith Lia.
From Corelib Require Export Init.Byte.

Declare Scope views_scope.
Delimit Scope views_scope with views.
Open Scope Z_scope.

(** ** Go's [int64] *)

Definition int64_min : Z := - 2 ^ 63.
Definition int64_max : Z := 2 ^ 63 - 1.

(** Two's-complement wrap-around of a Go [int64] addition. *)
Definition int64_wrap (z : Z) : Z := (z + 2 ^ 63) mod 2 ^ 64 - 2 ^ 63.

Definition in_int64 (z : Z) : Prop := int64_min <= z <= int64_max.

#[export] Instance in_int64_dec z : Decision (in_int64 z).
Proof. unfold in_int64. apply _. Defined.

(** [len xs] is Go's [len] of a slice, as an [int]. *)
Notation "'len' xs" := (Z.of_nat (length xs)) (at level 10) : views_scope.
Open Scope views_scope.

Create HintDb views.

Lemma int64_wrap_small z : in_int64 z -> int64_wrap z = z.
Proof.
  unfold in_int64, int64_wrap, int64_min, int64_max. intros Hz.
  rewrite Z.mod_small; lia.
Qed.

Lemma int64_wrap_in_range z : in_int64 (int64_wrap z).
Proof.
  unfold in_int64, int64_wrap, int64_min, int64_max.
  pose proof (Z.mod_pos_bound (z + 2 ^ 63) (2 ^ 64)). lia.
Qed.

Lemma int64_wrap_max_plus_one : int64_wrap (int64_max + 1) = int64_min.
Proof. reflexivity. Qed.

(** ** Lists as Go slices *)

Lemma take_app_drop_length {A} (xs ys : list A) (n : nat) :
  (n <= length xs)%nat -> length ys = n ->
  length (ys ++ drop n xs) = length xs.
Proof. intros ? <-. rewrite length_app, length_drop. lia. Qed.

Lemma drop_Z_to_nat_length {A} (xs : list A) (off : Z) :
  0 <= off <= len xs -> len (drop (Z.to_nat off) xs) = len xs - off.
Proof. intros. rewrite length_drop. lia. Qed.

Lemma take_drop_sub_length {A} (xs : list A) (a b : nat) :
  (a + b <= length xs)%nat -> length (take b (drop a xs)) = b.
Proof. intros. rewrite length_take, length_drop. lia. Qed.

#[export] Hint Resolve int64_wrap_in_range : views.
#[export] Hint Rewrite @length_app @length_take @length_drop : views.

(** Arithmetic over Go lengths: rewrite lengths, then [lia]. *)
Ltac views_arith :=
  unfold in_int64, int64_min, int64_max in *;
  autorewrite with views in *; lia.

(** Case analysis on the boolean comparisons of [Z] in the goal, as the
    Go conditions are written with them. *)
Ltac case_zb :=
  repeat match goal with
  | |- context [?a <? ?b] => destruct (Z.ltb_spec a b)
  | |- context [?a =? ?b] => destruct (Z.eqb_spec a b)
  | |- context [?a <=? ?b] => destruct (Z.leb_spec a b)
  end; simpl.

(** Close a goal whose hypotheses contradict each other arithmetically. *)
Ltac absurd_arith := exfalso; simpl in *; lia.
