(* ===== verification/GoRuntime.v ===== *)
(** * The parts of Go's runtime and standard library the sources call

    Error values ([io.EOF], the values made by [errors.New] in the three
    source files, and errors returned by a reader's [Close]), the builtin
    [copy], run-time panics (the monad [go]) and the checked slice
    expressions [b[off:]] and [s[off:]].  None of this code is under
    [src/]: it is modelled from the Go language specification and the
    documentation of packages [io] and [errors]. *)

From S2P Require Import Prelude.
From Stdlib Require String Ascii.
Import String.StringSyntax.
Delimit Scope string_scope with string.

(** ** Error values *)

(** The package that declares an [errInvalidOffset].  [errors.New]
    returns a fresh pointer on each call, so [bytes.errInvalidOffset]
    and [strings.errInvalidOffset] are two different values with the
    same message. *)
Inductive Pkg := PkgBytes | PkgStrings.

(** The error values that reach the callers of the package.  [ErrSource c]
    stands for an error returned by the [Close] method of a reader that
    implements [io.Closer]; [c] tells such errors apart. *)
Inductive error :=
| EOF
| ErrInvalidOffset (pkg : Pkg)
| ErrClosed
| ErrSource (code : nat).

#[export] Instance Pkg_eq_dec : EqDecision Pkg.
Proof. solve_decision. Defined.

#[export] Instance error_eq_dec : EqDecision error.
Proof. solve_decision. Defined.

(** ** Panics *)

(** A Go computation either returns or panics with a run-time error; a
    panic propagates through the callers.  The monad is stdpp's
    [MRet]/[MBind], so [x ← m; k] is Go's sequencing. *)
Inductive go (A : Type) : Type :=
| Ret (a : A)
| Panic (msg : String.string).
Arguments Ret {A} a.
Arguments Panic {A} msg.

#[export] Instance go_ret : MRet go := @Ret.
#[export] Instance go_bind : MBind go := fun A B f m =>
  match m with Ret a => f a | Panic msg => Panic msg end.

(** [m] returns, and its value satisfies [P]; a panic satisfies nothing. *)
Definition go_spec {A} (P : A -> Prop) (m : go A) : Prop :=
  match m with Ret a => P a | Panic _ => False end.

Definition panics {A} (m : go A) : bool :=
  match m with Ret _ => false | Panic _ => true end.

#[export] Instance go_fmap : FMap go := fun A B f m =>
  match m with Ret a => Ret (f a) | Panic msg => Panic msg end.

Lemma go_bind_ret {A B} (a : A) (f : A -> go B) : (x ← Ret a; f x) = f a.
Proof. reflexivity. Qed.

Lemma go_spec_ret {A} (P : A -> Prop) (m : go A) :
  go_spec P m <-> exists a, m = Ret a /\ P a.
Proof. destruct m; simpl; split; [eauto|intros (? & [= ->] & ?); done|done|intros (? & ? & _); done]. Qed.

(** The rule of sequencing: [m] returns with [P], and [f] returns with
    [Q] from every value that satisfies [P]. *)
Lemma go_spec_bind {A B} (P : A -> Prop) (Q : B -> Prop) (m : go A) (f : A -> go B) :
  go_spec P m -> (forall a, P a -> go_spec Q (f a)) -> go_spec Q (m ≫= f).
Proof. destruct m; simpl; auto. Qed.

Lemma go_spec_mono {A} (P Q : A -> Prop) (m : go A) :
  (forall a, P a -> Q a) -> go_spec P m -> go_spec Q m.
Proof. destruct m; simpl; auto. Qed.

Lemma go_spec_no_panic {A} (P : A -> Prop) (m : go A) : go_spec P m -> panics m = false.
Proof. destruct m; simpl; done. Qed.

(** ** The builtin [copy] *)

(** [copy(dst, src)] copies [min(len(dst), len(src))] elements from the
    front of [src] over the front of [dst] and returns that count; the
    rest of [dst] is unchanged. *)
Definition go_copy (dst src : list byte) : list byte * nat :=
  let n := Nat.min (length dst) (length src) in
  (take n src ++ drop n dst, n).

(** [copy(dst, s)] from a string copies the string's bytes. *)
Definition go_copy_string (dst : list byte) (s : String.string) : list byte * nat :=
  go_copy dst (String.list_byte_of_string s).

(** ** Slicing *)

(** [b[off:]] for a slice, when [0 <= off <= len(b)]. *)
Definition slice_from (b : list byte) (off : Z) : list byte :=
  drop (Z.to_nat off) b.

(** [s[off:]] for a string, when [0 <= off <= len(s)]: the substring from
    byte [off] to the end. *)
Definition string_slice_from (s : String.string) (off : Z) : String.string :=
  String.substring (Z.to_nat off) (String.length s - Z.to_nat off) s.

(** Go's slice expressions check their bounds at run time:
    [b[off:]] panics unless [0 <= off <= len(b)]; so does [s[off:]]. *)
Definition bounds_panic : String.string :=
  "runtime error: slice bounds out of range"%string.

Definition go_slice_from (b : list byte) (off : Z) : go (list byte) :=
  if (0 <=? off) && (off <=? len b) then Ret (slice_from b off) else Panic bounds_panic.

Definition go_string_slice_from (s : String.string) (off : Z) : go String.string :=
  if (0 <=? off) && (off <=? Z.of_nat (String.length s))
  then Ret (string_slice_from s off) else Panic bounds_panic.

(** ** Lemmas on [copy] and slicing *)

Lemma go_slice_from_in_range b off :
  0 <= off <= len b -> go_slice_from b off = Ret (slice_from b off).
Proof. intros H. unfold go_slice_from. case_zb; reflexivity || absurd_arith. Qed.

Lemma go_slice_from_out_of_range b off :
  off < 0 \/ len b < off -> go_slice_from b off = Panic bounds_panic.
Proof. intros H. unfold go_slice_from. case_zb; reflexivity || absurd_arith. Qed.

Lemma go_string_slice_from_in_range s off :
  0 <= off <= Z.of_nat (String.length s) ->
  go_string_slice_from s off = Ret (string_slice_from s off).
Proof. intros H. unfold go_string_slice_from. case_zb; reflexivity || absurd_arith. Qed.


Lemma go_copy_count dst src :
  snd (go_copy dst src) = Nat.min (length dst) (length src).
Proof. reflexivity. Qed.

Lemma go_copy_length dst src :
  length (fst (go_copy dst src)) = length dst.
Proof. unfold go_copy; simpl. autorewrite with views. lia. Qed.

(** What [copy] writes: the prefix of [src] that fits, then [dst]'s tail. *)
Lemma go_copy_fits dst src :
  (length dst <= length src)%nat ->
  go_copy dst src = (take (length dst) src, length dst).
Proof.
  intros H. unfold go_copy. rewrite Nat.min_l by lia.
  rewrite drop_all, app_nil_r. reflexivity.
Qed.

Lemma go_copy_short dst src :
  (length src <= length dst)%nat ->
  go_copy dst src = (src ++ drop (length src) dst, length src).
Proof.
  intros H. unfold go_copy. rewrite Nat.min_r by lia.
  rewrite take_ge by lia. reflexivity.
Qed.

Lemma go_copy_nil dst : go_copy dst [] = (dst, 0%nat).
Proof. unfold go_copy. simpl. rewrite Nat.min_0_r. reflexivity. Qed.

Lemma slice_from_length b off :
  0 <= off <= len b -> len (slice_from b off) = len b - off.
Proof. apply drop_Z_to_nat_length. Qed.

Lemma substring_whole (s : String.string) :
  String.substring 0 (String.length s) s = s.
Proof. induction s as [|c s IH]; simpl; congruence. Qed.

(** The bytes of [s[off:]] are the bytes of [s] from [off] on. *)
Lemma list_byte_of_substring_suffix (s : String.string) (k : nat) :
  String.list_byte_of_string (String.substring k (String.length s - k) s)
  = drop k (String.list_byte_of_string s).
Proof.
  revert k. induction s as [|c s IH]; intros [|k]; try reflexivity.
  - rewrite Nat.sub_0_r, substring_whole. reflexivity.
  - exact (IH k).
Qed.

Lemma string_slice_from_bytes s off :
  String.list_byte_of_string (string_slice_from s off)
  = slice_from (String.list_byte_of_string s) off.
Proof. apply list_byte_of_substring_suffix. Qed.

Lemma length_list_byte_of_string s :
  length (String.list_byte_of_string s) = String.length s.
Proof. induction s as [|c s IH]; simpl; auto. Qed.

#[export] Hint Rewrite go_copy_length length_list_byte_of_string : views.
