(* ===== verification/ReaderAt.v ===== *)
(** * The [SizeReaderAt] interface and the contract of a positioned read

    [src/consumer.go] declares [type SizeReaderAt interface { io.ReaderAt;
    Size() int64 }].  Here it is the class [SizeReaderAt]; the run-time
    assertion [c.r.(io.Closer)] of [Consumer.Close] is the class
    [MaybeCloser].  [ReadAtSpec] is the abstract contract of [ReadAt]
    over contents [d] (spec, section 4.1), one rule per outcome, and
    [SizeReaderAtOk] is the class of readers that meet it; the consumer is
    verified against [SizeReaderAtOk], and each view discharges it. *)

From S2P Require Import Prelude GoRuntime.

(** What a call [n, err := r.ReadAt(p, off)] leaves behind: the contents
    of the caller's slice [p] afterwards, [n] and [err] ([None] is
    [nil]). *)
Record ReadResult := mkRead {
  rd_buf : list byte;
  rd_n : Z;
  rd_err : option error
}.

(** [type SizeReaderAt interface { io.ReaderAt; Size() int64 }]; a call
    of [ReadAt] may panic, as any Go call may. *)
Class SizeReaderAt (R : Type) := {
  ReadAt : R -> list byte -> Z -> go ReadResult;
  Size : R -> Z
}.

(** [cl, ok := c.r.(io.Closer)]: [None] when the dynamic type of the
    reader has no [Close] method; otherwise [Some (r', e)], where [e] is
    what [cl.Close()] returns and [r'] the reader's state afterwards. *)
Class MaybeCloser (R : Type) := as_closer : R -> option (R * option error).

(** ** The contract of [ReadAt] over fixed contents [d] *)

Inductive ReadAtSpec (d p : list byte) (off : Z) : ReadResult -> Prop :=
| spec_invalid pkg :
    off < 0 \/ len d < off ->
    ReadAtSpec d p off (mkRead p 0 (Some (ErrInvalidOffset pkg)))
| spec_empty_at_end :
    p = [] -> off = len d ->
    ReadAtSpec d p off (mkRead p 0 (Some EOF))
| spec_full :
    0 <= off -> off + len p <= len d -> off < len d ->
    ReadAtSpec d p off
      (mkRead (take (length p) (drop (Z.to_nat off) d)) (len p) None)
| spec_short :
    0 <= off <= len d -> len d < off + len p ->
    ReadAtSpec d p off
      (mkRead (drop (Z.to_nat off) d ++ drop (Z.to_nat (len d - off)) p)
              (len d - off) (Some EOF)).

(** A reader that meets the contract over contents that never change:
    [ReadAt] returns (it never panics, whatever the offset) a result the
    contract allows; its size is its contents' length, and its [Close]
    does not change its size ("Users can assume it will never change it's
    size again"). *)
Class SizeReaderAtOk (R : Type) `{SizeReaderAt R} `{MaybeCloser R} := {
  Contents : R -> list byte;
  Size_Contents r : Size r = len (Contents r);
  ReadAt_spec r p off : go_spec (ReadAtSpec (Contents r) p off) (ReadAt r p off);
  close_Size r r' e : as_closer r = Some (r', e) -> Size r' = Size r
}.

(** ** Consequences of the contract *)

Section ContractFacts.
Context (d p : list byte) (off : Z) (res : ReadResult).
Hypothesis Hspec : ReadAtSpec d p off res.

Lemma spec_buf_length : length (rd_buf res) = length p.
Proof.
  destruct Hspec; simpl; autorewrite with views; lia.
Qed.

Lemma spec_n_range : 0 <= rd_n res <= len p.
Proof. destruct Hspec; simpl; lia. Qed.

(** On a valid offset, [n = min(len(p), len(d) - off)]. *)
Lemma spec_n_valid :
  0 <= off <= len d -> rd_n res = Z.min (len p) (len d - off).
Proof.
  intros. destruct Hspec; simpl; lia.
Qed.

Lemma spec_n_invalid : off < 0 \/ len d < off -> rd_n res = 0.
Proof. intros. destruct Hspec; simpl; lia. Qed.

(** The first [n] bytes of [p] are [d[off:off+n]]. *)
Lemma spec_data :
  0 <= off <= len d ->
  take (Z.to_nat (rd_n res)) (rd_buf res)
  = take (Z.to_nat (rd_n res)) (drop (Z.to_nat off) d).
Proof.
  intros Hoff. destruct Hspec; simpl.
  - lia.
  - reflexivity.
  - rewrite Nat2Z.id, take_take, Nat.min_id. reflexivity.
  - rewrite take_app_length'; [|rewrite length_drop; lia].
    rewrite take_ge; [reflexivity|rewrite length_drop; lia].
Qed.

(** [io.ReaderAt]: "When ReadAt returns n < len(p), it returns a non-nil
    error." *)
Lemma spec_short_err : rd_n res < len p -> rd_err res <> None.
Proof. destruct Hspec; simpl; try congruence. lia. Qed.

Lemma spec_nil_iff :
  rd_err res = None <-> 0 <= off /\ off + len p <= len d /\ off < len d.
Proof.
  destruct Hspec; simpl; split; intros; congruence || lia.
Qed.

Lemma spec_err_cases :
  rd_err res = None \/ rd_err res = Some EOF \/
  exists pkg, rd_err res = Some (ErrInvalidOffset pkg).
Proof. destruct Hspec; simpl; eauto. Qed.
End ContractFacts.

#[export] Hint Resolve spec_n_range spec_buf_length : views.

(** The contract, as the value a call returns. *)
Lemma ReadAt_ret `{SizeReaderAtOk R} (r : R) p off :
  exists res, ReadAt r p off = Ret res /\ ReadAtSpec (Contents r) p off res.
Proof. apply go_spec_ret, ReadAt_spec. Qed.

Lemma ReadAt_ret_spec `{SizeReaderAtOk R} (r : R) p off res :
  ReadAt r p off = Ret res -> ReadAtSpec (Contents r) p off res.
Proof. intros E. pose proof (ReadAt_spec r p off) as Hs. rewrite E in Hs. exact Hs. Qed.

(** ** Results up to the identity of the invalid-offset error *)

(** Replace the package of an [errInvalidOffset] in a result. *)
Definition relabel_invalid (pkg : Pkg) (res : ReadResult) : ReadResult :=
match rd_err res with
| Some (ErrInvalidOffset _) => mkRead (rd_buf res) (rd_n res) (Some (ErrInvalidOffset pkg))
| _ => res
end.

Lemma relabel_invalid_spec d p off res pkg :
ReadAtSpec d p off res -> ReadAtSpec d p off (relabel_invalid pkg res).
Proof. destruct 1; simpl; constructor; assumption. Qed.
