(* ===== verification/BytesView.v ===== *)
(** * [src/bytes/view.go]: a read-only view of a byte slice

    [Module BytesView] holds the struct [View] ([b []byte]), [NewView],
    [ReadAt] and [Size]; the theorems give [ReadAt]'s result on each of
    its four branches, prove that it refines the contract [ReadAtSpec]
    of [ReaderAt] (so that it never panics), and make the view an
    instance of [SizeReaderAtOk]. *)

From S2P Require Import Prelude GoRuntime ReaderAt.

Module BytesView.

(** [type View struct { b []byte }] *)
Record View := mkView { b : list byte }.

(** [func NewView(b []byte) *View { return &View{b} }] *)
Definition NewView (b : list byte) : View := mkView b.

(** [var errInvalidOffset = errors.New("invalid offset")]: this
    package's own value. *)
Definition errInvalidOffset : error := ErrInvalidOffset PkgBytes.

(** [func (v *View) Size() int64 { return int64(len(v.b)) }] *)
Definition Size (v : View) : Z := len (b v).

(** [func (v *View) ReadAt(p []byte, off int64) (n int, err error)]:
    the slice expression [v.b[off:]] is Go's checked slicing, which
    panics out of range. *)
Definition ReadAt (v : View) (p : list byte) (off : Z) : go ReadResult :=
  let limit := Size v in
  if (off <? 0) || (limit <? off) then Ret (mkRead p 0 (Some errInvalidOffset))
  else
    let space := len p in
    if (space =? 0) && (off =? limit) then Ret (mkRead p 0 (Some EOF))
    else
      src ← go_slice_from (b v) off;
      let '(p', n) := go_copy p src in
      if Z.of_nat n <? space then Ret (mkRead p' (Z.of_nat n) (Some EOF))
      else Ret (mkRead p' (Z.of_nat n) None).

(** ** [ReadAt] on each branch *)

Lemma invalid_offset_result v p off :
  off < 0 \/ Size v < off ->
  ReadAt v p off = Ret (mkRead p 0 (Some (ErrInvalidOffset PkgBytes))).
Proof.
  intros H. unfold ReadAt. case_zb; reflexivity || absurd_arith.
Qed.

(** (C4) An offset outside [[0, Size()]] is rejected with the package's
    [errInvalidOffset]; [n] is 0 and nothing is written to [p]. *)
Theorem ReadAt_invalid_offset v p off :
  off < 0 \/ Size v < off ->
  ReadAt v p off = Ret (mkRead p 0 (Some (ErrInvalidOffset PkgBytes))).
Proof. apply invalid_offset_result. Qed.

Lemma ReadAt_invalid_offset_witness :
  ReadAt (NewView [x01; x02]) [x00] 3 = Ret (mkRead [x00] 0 (Some (ErrInvalidOffset PkgBytes))).
Proof. apply ReadAt_invalid_offset. unfold Size; simpl; lia. Defined.

(** Past the guard, [v.b[off:]] is in range and does not panic. *)
Lemma ReadAt_valid_unfold v p off :
  0 <= off <= Size v ->
  ReadAt v p off =
    if (len p =? 0) && (off =? Size v) then Ret (mkRead p 0 (Some EOF))
    else let '(p', n) := go_copy p (slice_from (b v) off) in
         if Z.of_nat n <? len p then Ret (mkRead p' (Z.of_nat n) (Some EOF))
         else Ret (mkRead p' (Z.of_nat n) None).
Proof.
  intros H. unfold ReadAt.
  rewrite go_slice_from_in_range by (unfold Size in H; lia).
  destruct (Z.ltb_spec off 0), (Z.ltb_spec (Size v) off); simpl;
    reflexivity || absurd_arith.
Qed.

Lemma empty_at_end_result v :
  ReadAt v [] (Size v) = Ret (mkRead [] 0 (Some EOF)).
Proof.
  rewrite ReadAt_valid_unfold by (unfold Size; lia).
  case_zb; reflexivity || absurd_arith.
Qed.

(** (C5) Reading zero bytes exactly at the end reports [io.EOF]. *)
Theorem ReadAt_empty_at_end v :
  ReadAt v [] (Size v) = Ret (mkRead [] 0 (Some EOF)).
Proof. apply empty_at_end_result. Qed.

Lemma full_result v p off :
  0 <= off -> off + len p <= Size v -> off < Size v ->
  ReadAt v p off = Ret (mkRead (take (length p) (drop (Z.to_nat off) (b v))) (len p) None).
Proof.
  intros H0 Hfit Hlt. rewrite ReadAt_valid_unfold by lia.
  unfold slice_from. rewrite go_copy_fits by (unfold Size in *; views_arith).
  case_zb; reflexivity || absurd_arith.
Qed.

(** (C6) A read that fits before the end fills [p] with
    [b[off:off+len(p)]] and returns [n = len(p)], [err = nil]. *)
Theorem ReadAt_full v p off :
  0 <= off -> off + len p <= Size v -> off < Size v ->
  ReadAt v p off = Ret (mkRead (take (length p) (drop (Z.to_nat off) (b v))) (len p) None).
Proof. apply full_result. Qed.

Lemma ReadAt_full_witness :
  ReadAt (NewView [x01; x02; x03; x04; x05]) [x00; x00; x00] 1 = Ret (mkRead [x02; x03; x04] 3 None).
Proof. rewrite ReadAt_full by (unfold Size; simpl; lia). reflexivity. Defined.

Lemma short_result v p off :
  0 <= off <= Size v -> Size v < off + len p ->
  ReadAt v p off =
    Ret (mkRead (drop (Z.to_nat off) (b v) ++ drop (Z.to_nat (Size v - off)) p)
                (Size v - off) (Some EOF)).
Proof.
  intros Hoff Hshort. rewrite ReadAt_valid_unfold by lia.
  unfold slice_from. rewrite go_copy_short by (unfold Size in *; views_arith).
  unfold Size in *. rewrite length_drop.
  replace (Z.of_nat (length (b v) - Z.to_nat off)) with (len (b v) - off) by lia.
  replace (Z.to_nat (len (b v) - off)) with (length (b v) - Z.to_nat off)%nat by lia.
  case_zb; reflexivity || absurd_arith.
Qed.

(** (C7) A read that runs past the end delivers the [Size() - off] bytes
    left, leaves the rest of [p] as it was, and reports [io.EOF]. *)
Theorem ReadAt_short v p off :
  0 <= off <= Size v -> Size v < off + len p ->
  ReadAt v p off =
    Ret (mkRead (drop (Z.to_nat off) (b v) ++ drop (Z.to_nat (Size v - off)) p)
                (Size v - off) (Some EOF)).
Proof. apply short_result. Qed.

Lemma ReadAt_short_witness :
  ReadAt (NewView [x01; x02; x03; x04; x05]) [x00; x00; x00] 4 = Ret (mkRead [x05; x00; x00] 1 (Some EOF)).
Proof. rewrite ReadAt_short by (unfold Size; simpl; lia). reflexivity. Defined.

Lemma ReadAt_meets_spec v p off :
  go_spec (ReadAtSpec (b v) p off) (ReadAt v p off).
Proof.
  destruct (decide (off < 0 \/ Size v < off)) as [Hinv|Hv].
  { rewrite invalid_offset_result by exact Hinv. constructor. exact Hinv. }
  destruct (decide (off + len p <= Size v)) as [Hfit|Hshort].
  - destruct (decide (off = Size v)) as [Hend|Hne].
    + assert (p = []) as -> by (destruct p; simpl in *; [done|lia]).
      rewrite Hend, empty_at_end_result. apply spec_empty_at_end; done.
    + rewrite full_result by lia. apply spec_full; unfold Size in *; lia.
  - rewrite short_result by lia. unfold Size. apply spec_short; unfold Size in *; lia.
Qed.

(** (C3) Refinement: the byte view's [ReadAt] returns, for every buffer
    and every offset, a result that the contract [ReadAtSpec] over its
    bytes allows. *)
Theorem ReadAt_refines_spec v p off :
  go_spec (ReadAtSpec (b v) p off) (ReadAt v p off).
Proof. apply ReadAt_meets_spec. Qed.

(** (C18) The [io.ReaderAt] contract: when [ReadAt] returns fewer bytes
    than [len(p)], its error is not [nil]. *)
Theorem ReadAt_short_count_errs v p off res :
  ReadAt v p off = Ret res -> rd_n res < len p -> rd_err res <> None.
Proof.
  intros E. pose proof (ReadAt_meets_spec v p off) as Hs. rewrite E in Hs.
  exact (spec_short_err (b v) p off res Hs).
Qed.

Lemma ReadAt_short_count_errs_witness :
  rd_err (mkRead [x02; x00; x00] 1 (Some EOF)) <> None.
Proof.
  apply (ReadAt_short_count_errs (NewView [x01; x02]) [x00; x00; x00] 1);
    vm_compute; reflexivity.
Defined.

(** The examples of the spec (section 8), run on the definition. *)
Example ReadAt_spec_examples :
  let v := NewView [x01; x02; x03; x04; x05] in
  ReadAt v [x00; x00; x00] 2 = Ret (mkRead [x03; x04; x05] 3 None) /\
  ReadAt v [x00; x00; x00] 4 = Ret (mkRead [x05; x00; x00] 1 (Some EOF)) /\
  ReadAt v [] 5 = Ret (mkRead [] 0 (Some EOF)) /\
  ReadAt v [] 6 = Ret (mkRead [] 0 (Some (ErrInvalidOffset PkgBytes))).
Proof. repeat split. Qed.

End BytesView.

#[export] Instance BytesView_SizeReaderAt : SizeReaderAt BytesView.View :=
  {| ReadAt := BytesView.ReadAt; Size := BytesView.Size |}.

(** [*bytes.View] has no [Close] method. *)
#[export] Instance BytesView_MaybeCloser : MaybeCloser BytesView.View :=
  fun _ => None.

#[export] Instance BytesView_SizeReaderAtOk : SizeReaderAtOk BytesView.View.
Proof.
  refine {| Contents := BytesView.b |}.
  - reflexivity.
  - apply BytesView.ReadAt_meets_spec.
  - discriminate.
Defined.
