(* ===== verification/StringsView.v ===== *)
(** * [src/strings/view.go]: a read-only view of a string

    [Module StringsView] holds the struct [View] ([s string]),
    [NewView], [ReadAt] and [Size].  A Go string is a sequence of bytes;
    here it is a [String.string], whose [ascii] characters are bytes.  The
    main theorem says that the string view behaves exactly as the byte
    view over the string's bytes, except that it returns its own
    [errInvalidOffset] value. *)

From S2P Require Import Prelude GoRuntime ReaderAt BytesView.
From Stdlib Require String.

Module StringsView.

(** [type View struct { s string }] *)
Record View := mkView { s : String.string }.

(** [func NewView(s string) *View { return &View{s} }] *)
Definition NewView (s : String.string) : View := mkView s.

(** [var errInvalidOffset = errors.New("invalid offset")]: a value
    distinct from the [bytes] package's. *)
Definition errInvalidOffset : error := ErrInvalidOffset PkgStrings.

(** [func (v *View) Size() int64 { return int64(len(v.s)) }] *)
Definition Size (v : View) : Z := Z.of_nat (String.length (s v)).

(** [func (v *View) ReadAt(p []byte, off int64) (n int, err error)]:
    [v.s[off:]] is Go's checked string slicing. *)
Definition ReadAt (v : View) (p : list byte) (off : Z) : go ReadResult :=
  let limit := Size v in
  if (off <? 0) || (limit <? off) then Ret (mkRead p 0 (Some errInvalidOffset))
  else
    let space := len p in
    if (space =? 0) && (off =? limit) then Ret (mkRead p 0 (Some EOF))
    else
      src ← go_string_slice_from (s v) off;
      let '(p', n) := go_copy_string p src in
      if Z.of_nat n <? space then Ret (mkRead p' (Z.of_nat n) (Some EOF))
      else Ret (mkRead p' (Z.of_nat n) None).

(** The bytes a string view shows. *)
Definition bytes_of (v : View) : BytesView.View :=
  BytesView.NewView (String.list_byte_of_string (s v)).

Lemma Size_bytes_of v : BytesView.Size (bytes_of v) = Size v.
Proof.
  unfold BytesView.Size, Size, bytes_of. simpl.
  rewrite length_list_byte_of_string. reflexivity.
Qed.

Lemma ReadAt_bytes_relabel v p off :
  ReadAt v p off = relabel_invalid PkgStrings <$> BytesView.ReadAt (bytes_of v) p off.
Proof.
  unfold ReadAt, BytesView.ReadAt. rewrite Size_bytes_of.
  destruct (Z.ltb_spec off 0), (Z.ltb_spec (Size v) off); simpl; try reflexivity.
  destruct ((len p =? 0) && (off =? Size v)); [reflexivity|].
  rewrite go_string_slice_from_in_range by (unfold Size in *; lia).
  rewrite go_slice_from_in_range
    by (unfold bytes_of, Size in *; simpl; rewrite length_list_byte_of_string; lia).
  cbn [mbind go_bind]. unfold go_copy_string. rewrite string_slice_from_bytes.
  case_zb; reflexivity.
Qed.

(** (C8) Equivalence with the byte view: on every buffer and offset, the
    string view returns the same bytes in [p], the same [n] and the same
    kind of error as the byte view over the string's bytes; only the
    invalid-offset error is the [strings] package's own value. *)
Theorem ReadAt_as_bytes v p off :
  ReadAt v p off = relabel_invalid PkgStrings <$> BytesView.ReadAt (bytes_of v) p off.
Proof. apply ReadAt_bytes_relabel. Qed.

Lemma ReadAt_string_meets_spec v p off :
  go_spec (ReadAtSpec (String.list_byte_of_string (s v)) p off) (ReadAt v p off).
Proof.
  rewrite ReadAt_bytes_relabel.
  pose proof (BytesView.ReadAt_meets_spec (bytes_of v) p off) as Hs.
  destruct (BytesView.ReadAt _ _ _); [apply relabel_invalid_spec|]; exact Hs.
Qed.

(** (C23) Safety: the string view's [ReadAt] never panics either:
    its guard keeps [v.s[off:]] within the bounds of the string. *)
Theorem ReadAt_string_never_panics v p off : panics (ReadAt v p off) = false.
Proof. exact (go_spec_no_panic _ _ (ReadAt_string_meets_spec v p off)). Qed.

End StringsView.

#[export] Instance StringsView_SizeReaderAt : SizeReaderAt StringsView.View :=
  {| ReadAt := StringsView.ReadAt; Size := StringsView.Size |}.

(** [*strings.View] has no [Close] method. *)
#[export] Instance StringsView_MaybeCloser : MaybeCloser StringsView.View :=
  fun _ => None.

#[export] Instance StringsView_SizeReaderAtOk : SizeReaderAtOk StringsView.View.
Proof.
  refine {| Contents v := String.list_byte_of_string (StringsView.s v) |}.
  - intros v. simpl. unfold StringsView.Size.
    rewrite length_list_byte_of_string. reflexivity.
  - apply StringsView.ReadAt_string_meets_spec.
  - discriminate.
Defined.
