(* ===== verification/Consumer.v ===== *)
(** * [src/consumer.go]: the [Consumer] state machine

    [Module Consumer] models the struct [Consumer] and its methods over
    any reader of class [SizeReaderAt] (a [Section] with the reader type
    and its instances as [Context]).  The methods are gathered in [step]
    over the operations [Op]; [reachable] is the set of states a program
    can reach from [NewConsumer] (an inductive predicate), and [inv] the
    invariant [0 <= i <= limit = Size r <= MaxInt64] that every operation
    preserves, proved against the class [SizeReaderAtOk] only.  Safety
    (no run panics), liveness (reads reach [io.EOF]) and, over a reader
    outside the contract, the wrap-around of the cursor close the file. *)

From S2P Require Import Prelude GoRuntime ReaderAt BytesView.

Module Consumer.

Section WithReader.
Context {R : Type} `{SizeReaderAt R} `{MaybeCloser R}.

(** [var errClosed = errors.New("stream already closed")] *)
Definition errClosed : error := ErrClosed.

(** [type Consumer struct { r SizeReaderAt; i int64; limit int64; closed bool }] *)
Record Consumer := mkConsumer {
  r : R;
  i : Z;
  limit : Z;
  closed : bool
}.

(** [func NewConsumer(r SizeReaderAt) *Consumer]: [closed] is left at its
    zero value [false]. *)
Definition NewConsumer (src : R) : Consumer :=
  mkConsumer src 0 (Size src) false.

(** [func (c *Consumer) Read(p []byte) (n int, err error)]: a panic of
    [c.r.ReadAt] propagates. *)
Definition Read (c : Consumer) (p : list byte) : go (Consumer * ReadResult) :=
  if closed c then Ret (c, mkRead p 0 (Some errClosed))
  else
    res ← ReadAt (r c) p (i c);
    Ret (mkConsumer (r c) (int64_wrap (i c + rd_n res)) (limit c) (closed c), res).

(** [func (c *Consumer) Reset(r SizeReaderAt)]: assigns all four fields. *)
Definition Reset (c : Consumer) (src : R) : Consumer :=
  mkConsumer src 0 (Size src) false.

(** [func (c *Consumer) Rewind()] *)
Definition Rewind (c : Consumer) : Consumer :=
  mkConsumer (r c) 0 (limit c) (closed c).

(** [func (c *Consumer) Close() error]: the flag is set before the
    reader is closed, so a failing [Close] of the reader still leaves
    the consumer closed. *)
Definition Close (c : Consumer) : Consumer * option error :=
  if closed c then (c, Some errClosed)
  else
    match as_closer (r c) with
    | None => (mkConsumer (r c) (i c) (limit c) true, None)
    | Some (r', e) => (mkConsumer r' (i c) (limit c) true, e)
    end.

(** [func (c *Consumer) Size() int64] *)
Definition Size (c : Consumer) : Z := limit c.

(** ** Operations as a state machine *)

Inductive Op :=
| OpRead (p : list byte)
| OpReset (src : R)
| OpSize
| OpRewind
| OpClose.

Inductive Out :=
| OutRead (res : ReadResult)
| OutSize (n : Z)
| OutUnit
| OutClose (e : option error).

Definition step (c : Consumer) (op : Op) : go (Consumer * Out) :=
  match op with
  | OpRead p => '(c', res) ← Read c p; Ret (c', OutRead res)
  | OpReset src => Ret (Reset c src, OutUnit)
  | OpSize => Ret (c, OutSize (Size c))
  | OpRewind => Ret (Rewind c, OutUnit)
  | OpClose => let '(c', e) := Close c in Ret (c', OutClose e)
  end.

(** A sequence of method calls on one consumer, in program order; a
    panic ends the sequence. *)
Fixpoint run (c : Consumer) (ops : list Op) : go (Consumer * list Out) :=
  match ops with
  | [] => Ret (c, [])
  | op :: ops' =>
      '(c1, o) ← step c op;
      '(c2, os) ← run c1 ops';
      Ret (c2, o :: os)
  end.

(** Go's [Size() int64] returns an [int64]. *)
Definition fits (src : R) : Prop := ReaderAt.Size src <= int64_max.

Definition op_ok (op : Op) : Prop :=
  match op with OpReset src => fits src | _ => True end.

Inductive reachable : Consumer -> Prop :=
| reachable_new src : fits src -> reachable (NewConsumer src)
| reachable_step c op c' o :
    reachable c -> op_ok op -> step c op = Ret (c', o) -> reachable c'.

Definition inv (c : Consumer) : Prop :=
  0 <= i c <= limit c /\ limit c = ReaderAt.Size (r c) /\ limit c <= int64_max.

End WithReader.

Arguments Consumer R : clear implicits.
Arguments Op R : clear implicits.

Section Theory.
Context {R : Type} `{SizeReaderAt R} `{MaybeCloser R} `{!SizeReaderAtOk R}.

Local Abbreviation Consumer := (Consumer R).

(** The contents seen by the consumer's current reader. *)
Local Abbreviation data c := (Contents (r c)).

Lemma inv_size c : inv c -> limit c = len (data c).
Proof. intros (_ & -> & _). apply Size_Contents. Qed.

(** The count of a read at the cursor that the contract allows keeps
    the cursor in range. *)
Lemma read_n_range c p res :
  inv c -> ReadAtSpec (data c) p (i c) res -> 0 <= rd_n res <= limit c - i c.
Proof.
  intros Hinv Hs. pose proof (inv_size c Hinv) as Hl. destruct Hinv as [Hi _].
  pose proof (spec_n_valid _ _ _ _ Hs) as Hn. pose proof (spec_n_range _ _ _ _ Hs). lia.
Qed.

Lemma Read_closed_result c p :
  closed c = true -> Read c p = Ret (c, mkRead p 0 (Some ErrClosed)).
Proof. intros Hc. unfold Read. rewrite Hc. reflexivity. Qed.

(** (C9) A [Read] on a closed consumer returns [0, errClosed], writes
    nothing to [p] and leaves the consumer unchanged. *)
Theorem Read_closed c p :
  closed c = true -> Read c p = Ret (c, mkRead p 0 (Some ErrClosed)).
Proof. apply Read_closed_result. Qed.

Lemma Read_open_result c p res :
  inv c -> closed c = false -> ReadAtSpec (data c) p (i c) res ->
  ReadAt (r c) p (i c) = Ret res ->
  Read c p = Ret (mkConsumer (r c) (i c + rd_n res) (limit c) false, res).
Proof.
  intros Hinv Hc Hs E. pose proof (read_n_range c p res Hinv Hs).
  destruct Hinv as (? & _ & ?).
  unfold Read. rewrite Hc, E. simpl. rewrite int64_wrap_small; [reflexivity|].
  unfold in_int64, int64_min, int64_max in *. lia.
Qed.

(** [Read] on an open consumer in the invariant returns what the
    contract allows, with the cursor advanced by the count. *)
Lemma Read_open_ret c p :
  inv c -> closed c = false ->
  exists res, ReadAtSpec (data c) p (i c) res /\
    Read c p = Ret (mkConsumer (r c) (i c + rd_n res) (limit c) false, res).
Proof.
  intros Hinv Hc. destruct (ReadAt_ret (r c) p (i c)) as (res & E & Hs).
  exists res. split; [exact Hs|]. exact (Read_open_result c p res Hinv Hc Hs E).
Qed.

(** (C11) [Read] on an open consumer in the invariant passes [p] and the
    cursor to [ReadAt], returns its result unchanged, and advances the
    cursor by exactly [n]: the [int64] addition does not wrap. *)
Theorem Read_open c p res :
  inv c -> closed c = false -> ReadAt (r c) p (i c) = Ret res ->
  Read c p = Ret (mkConsumer (r c) (i c + rd_n res) (limit c) false, res).
Proof. intros Hinv Hc E. exact (Read_open_result c p res Hinv Hc (ReadAt_ret_spec _ _ _ _ E) E). Qed.

Lemma Close_closed c : closed (fst (Close c)) = true.
Proof.
  unfold Close. destruct (closed c) eqn:E; [exact E|].
  destruct (as_closer (r c)) as [[? ?]|]; reflexivity.
Qed.

(** (C10) [Close] on a closed consumer fails with [errClosed] and changes
    nothing; in particular a second [Close] always fails. *)
Theorem Close_twice c :
  Close (fst (Close c)) = (fst (Close c), Some ErrClosed).
Proof. unfold Close at 1. rewrite Close_closed. reflexivity. Qed.

(** (C15) [Close] on an open consumer marks it closed and returns what
    the reader's [Close] returns, or [nil] when the reader is not an
    [io.Closer]; the cursor and the limit are kept. *)
Theorem Close_open c :
  closed c = false ->
  Close c = match as_closer (r c) with
            | None => (mkConsumer (r c) (i c) (limit c) true, None)
            | Some (r', e) => (mkConsumer r' (i c) (limit c) true, e)
            end.
Proof. intros Hc. unfold Close. rewrite Hc. reflexivity. Qed.

(** (C14) [Reset] revives any consumer, closed or not: its size becomes
    the new reader's, it is open, and the next [Read] reads the new
    reader at offset 0 and returns what that read returns. *)
Theorem Reset_rebinds c src p :
  Size (Reset c src) = ReaderAt.Size src /\ closed (Reset c src) = false /\
  snd <$> Read (Reset c src) p = ReadAt src p 0.
Proof. repeat split. unfold Read; simpl. destruct (ReadAt src p 0); reflexivity. Qed.

(** ** The invariant *)

Lemma inv_new src : fits src -> inv (NewConsumer src).
Proof. unfold inv, fits; simpl. pose proof (Size_Contents src). lia. Qed.

Lemma inv_read c p : inv c -> go_spec (fun '(c', _) => inv c') (Read c p).
Proof.
  intros Hinv. destruct (closed c) eqn:Hc.
  - rewrite Read_closed_result by exact Hc. exact Hinv.
  - destruct (Read_open_ret c p Hinv Hc) as (res & Hs & ->).
    pose proof (read_n_range c p res Hinv Hs).
    destruct Hinv as (? & ? & ?). unfold inv; simpl. lia.
Qed.

Lemma inv_close c : inv c -> inv (fst (Close c)).
Proof.
  intros Hinv. unfold Close. destruct (closed c); [exact Hinv|].
  destruct (as_closer (r c)) as [[r' e]|] eqn:Hcl; [|exact Hinv].
  pose proof (close_Size _ _ _ Hcl). destruct Hinv as (? & ? & ?).
  unfold inv; simpl. lia.
Qed.

Lemma inv_step c op :
  inv c -> op_ok op -> go_spec (fun '(c', _) => inv c') (step c op).
Proof.
  intros Hinv Hok. destruct op as [p|src| | |]; simpl.
  - apply (go_spec_bind _ _ _ _ (inv_read c p Hinv)). intros [c' res] H'. exact H'.
  - exact (inv_new src Hok).
  - exact Hinv.
  - destruct Hinv as (? & ? & ?). unfold inv; simpl. lia.
  - pose proof (inv_close c Hinv) as Hcl. destruct (Close c). exact Hcl.
Qed.

(** (C12) Every operation on a consumer in the invariant returns, without
    panicking, and preserves the invariant
    [0 <= i <= limit = Size r <= MaxInt64]. *)
Theorem step_inv c op :
  inv c -> op_ok op -> go_spec (fun '(c', _) => inv c') (step c op).
Proof. apply inv_step. Qed.

Lemma inv_reachable c : reachable c -> inv c.
Proof.
  induction 1 as [src Hf|c op c' o _ IH Hok E].
  - exact (inv_new src Hf).
  - pose proof (inv_step c op IH Hok) as Hs. rewrite E in Hs. exact Hs.
Qed.

(** (C13) The invariant holds in every reachable state (rule induction on
    [reachable]). *)
Theorem reachable_inv c : reachable c -> inv c.
Proof. apply inv_reachable. Qed.

(** (C19) In every reachable state, [Read] on an open consumer returns,
    moves the cursor by exactly the count it returns, and the cursor
    stays within [[0, Size()]]: [c.i += int64(n)] never wraps. *)
Theorem reachable_read_no_wrap c p :
  reachable c -> closed c = false ->
  go_spec (fun '(c', res) => i c' = i c + rd_n res /\ 0 <= i c' <= Size c') (Read c p).
Proof.
  intros Hr Hc. pose proof (inv_reachable c Hr) as Hinv.
  destruct (Read_open_ret c p Hinv Hc) as (res & Hs & ->).
  pose proof (read_n_range c p res Hinv Hs). destruct Hinv as (? & _).
  unfold Size; simpl. lia.
Qed.

(** (C24) Error behaviour: on a reachable consumer, [Read] never fails
    with [errInvalidOffset]; the cursor it passes to [ReadAt] is always
    a valid offset, so the only errors a caller sees are [io.EOF] and
    [errClosed]. *)
Theorem reachable_read_errors c p :
  reachable c ->
  go_spec (fun '(_, res) => rd_err res = None \/ rd_err res = Some EOF \/
                            rd_err res = Some errClosed) (Read c p).
Proof.
  intros Hr. pose proof (inv_reachable c Hr) as Hinv. pose proof (inv_size c Hinv) as Hl.
  destruct (closed c) eqn:Hc; [rewrite Read_closed_result by exact Hc; simpl; auto|].
  destruct (Read_open_ret c p Hinv Hc) as (res & Hs & ->). simpl.
  destruct Hinv as (? & _).
  destruct Hs as [pkg Hb| | | ]; simpl; auto. lia.
Qed.

(** ** Position after a sequence of reads *)

Definition out_n (o : Out) : Z :=
  match o with OutRead res => rd_n res | _ => 0 end.

(** The sum of the counts the reads of a run returned. *)
Definition total_n (os : list Out) : Z := foldr (fun o acc => out_n o + acc) 0 os.

(** (C16) After any sequence of [Read]s on an open consumer in the
    invariant, none of which panics, the cursor has moved by the sum of
    the counts the reads returned, whatever the buffer sizes were. *)
Theorem run_reads_position c ps :
  inv c -> closed c = false ->
  go_spec (fun '(c', os) => i c' = i c + total_n os) (run c (map OpRead ps)).
Proof.
  revert c. induction ps as [|p ps IH]; intros c Hinv Hc; simpl; [lia|].
  pose proof (inv_read c p Hinv) as Hinv'.
  destruct (Read_open_ret c p Hinv Hc) as (res & _ & E). rewrite E in Hinv' |- *.
  simpl in Hinv' |- *. specialize (IH _ Hinv' eq_refl).
  destruct (run _ (map OpRead ps)) as [[c2 os]|msg]; simpl in IH |- *; [lia|exact IH].
Qed.

(** ** Reading to the end *)

(** [Read] at the end of the contents, with a non-empty buffer, returns
    [0, io.EOF] and leaves the cursor at the end. *)
Lemma read_at_end c p :
  inv c -> closed c = false -> i c = limit c -> (0 < length p)%nat ->
  go_spec (fun '(c', res) => c' = c /\ rd_err res = Some EOF) (Read c p).
Proof.
  intros Hinv Hc Hend Hp. pose proof (inv_size c Hinv) as Hl.
  destruct (Read_open_ret c p Hinv Hc) as (res & Hs & ->). simpl.
  pose proof (spec_n_valid _ _ _ _ Hs) as Hn.
  destruct Hs as [pkg Hb| -> _ | ? ? ? | ? ?]; simpl in *; try lia.
  destruct c as [r0 i0 l0 c0]; simpl in *; subst. split; [f_equal; lia|reflexivity].
Qed.

(** A run that starts with a [Read]. *)
Lemma run_read_cons c p ops :
  run c (OpRead p :: ops) =
    ('(c1, res) ← Read c p; '(c2, os) ← run c1 ops; Ret (c2, OutRead res :: os)).
Proof. simpl. destruct (Read c p) as [[? ?]|]; reflexivity. Qed.

Lemma run_at_end c ps :
  inv c -> closed c = false -> i c = limit c -> Forall (fun p => (0 < length p)%nat) ps ->
  go_spec (fun '(c', _) => c' = c) (run c (map OpRead ps)).
Proof.
  intros Hinv Hc Hend Hps. induction Hps as [|p ps Hp _ IH]; [reflexivity|].
  simpl map. rewrite run_read_cons. apply (go_spec_bind _ _ _ _ (read_at_end c p Hinv Hc Hend Hp)).
  intros [c' res] [-> _]. apply (go_spec_bind _ _ _ _ IH). intros [c2 os] ->. reflexivity.
Qed.

(** The output of a read that reported [io.EOF]. *)
Definition is_eof (o : Out) : bool :=
  match o with OutRead res => bool_decide (rd_err res = Some EOF) | _ => false end.

Lemma reads_to_end c ps :
  inv c -> closed c = false -> Forall (fun p => (0 < length p)%nat) ps ->
  limit c - i c < Z.of_nat (length ps) ->
  go_spec (fun '(c', os) => existsb is_eof os = true /\ i c' = limit c) (run c (map OpRead ps)).
Proof.
  revert c. induction ps as [|p ps IH]; intros c Hinv Hc Hps Hlen;
    [destruct Hinv as (? & _); simpl in Hlen; lia|].
  inversion_clear Hps as [|? ? Hp Hps']. pose proof (inv_size c Hinv) as Hl.
  pose proof (inv_read c p Hinv) as Hinv'. simpl.
  destruct (Read_open_ret c p Hinv Hc) as (res & Hs & E). rewrite E in Hinv' |- *. simpl in *.
  destruct Hs as [pkg Hb| -> _ | ? ? ? | ? ?]; simpl in *; try (destruct Hinv as (? & _); lia).
  - apply (go_spec_bind _ _ _ _ (IH _ Hinv' eq_refl Hps' ltac:(simpl; lia))).
    intros [c2 os] [Heof Hi]. simpl. rewrite Heof, ?orb_true_r. auto.
  - apply (go_spec_bind _ _ _ _ (run_at_end _ ps Hinv' eq_refl ltac:(simpl; lia) Hps')).
    intros [c2 os] ->. simpl. split; [reflexivity|lia].
Qed.

(** (C21) Liveness: a client that keeps calling [Read] on an open
    consumer in the invariant, with non-empty buffers of any sizes, sees
    [io.EOF] within [limit - i + 1] calls, and the cursor is then at the
    end, where it stays. *)
Theorem reads_reach_eof c ps :
  inv c -> closed c = false -> Forall (fun p => (0 < length p)%nat) ps ->
  limit c - i c < Z.of_nat (length ps) ->
  go_spec (fun '(c', os) => existsb is_eof os = true /\ i c' = limit c) (run c (map OpRead ps)).
Proof. apply reads_to_end. Qed.

End Theory.

(** ** The theorems on a consumer of the byte view [[1; 2; 3; 4; 5]] *)

Definition demo : BytesView.View := BytesView.NewView [x01; x02; x03; x04; x05].

Local Ltac solve_inv := unfold inv, fits, int64_max, demo; cbn; unfold BytesView.Size; cbn; lia.

Lemma Read_closed_witness :
  Read (mkConsumer demo 2 5 true) [x00] = Ret (mkConsumer demo 2 5 true, mkRead [x00] 0 (Some ErrClosed)).
Proof. apply Read_closed. reflexivity. Defined.

Lemma Read_open_witness :
  Read (NewConsumer demo) [x00; x00] = Ret (mkConsumer demo 2 5 false, mkRead [x01; x02] 2 None).
Proof.
  rewrite (Read_open (NewConsumer demo) [x00; x00] (mkRead [x01; x02] 2 None))
    by (reflexivity || solve_inv).
  reflexivity.
Defined.

Lemma Close_open_witness : Close (NewConsumer demo) = (mkConsumer demo 0 5 true, None).
Proof. rewrite (Close_open (NewConsumer demo)) by reflexivity. reflexivity. Defined.

Lemma step_inv_witness :
  go_spec (fun '(c', _) => inv c') (step (NewConsumer demo) (OpRead [x00; x00])).
Proof. apply step_inv; [solve_inv | exact I]. Defined.

Lemma reachable_inv_witness : inv (mkConsumer demo 0 5 false).
Proof.
  apply reachable_inv.
  apply (reachable_step (NewConsumer demo) OpRewind _ OutUnit);
    [apply reachable_new; solve_inv | exact I | reflexivity].
Defined.

Lemma reachable_read_no_wrap_witness :
  go_spec (fun '(c', res) => i c' = i (NewConsumer demo) + rd_n res /\ 0 <= i c' <= Size c')
          (Read (NewConsumer demo) [x00; x00]).
Proof. apply reachable_read_no_wrap; [apply reachable_new; solve_inv | reflexivity]. Defined.

Lemma reachable_read_errors_witness :
  go_spec (fun '(_, res) => rd_err res = None \/ rd_err res = Some EOF \/
                            rd_err res = Some errClosed) (Read (NewConsumer demo) [x00; x00]).
Proof. apply reachable_read_errors, reachable_new. solve_inv. Defined.

Lemma run_reads_position_witness :
  go_spec (fun '(c', os) => i c' = i (NewConsumer demo) + total_n os)
          (run (NewConsumer demo) (map OpRead [[x00; x00]; [x00; x00; x00; x00]])).
Proof. apply run_reads_position; [solve_inv | reflexivity]. Defined.

Lemma reads_reach_eof_witness :
  go_spec (fun '(c', os) => existsb is_eof os = true /\ i c' = limit (NewConsumer demo))
          (run (NewConsumer demo) (map OpRead (replicate 6 [x00; x00; x00]))).
Proof.
  apply reads_reach_eof;
    [solve_inv | reflexivity | repeat constructor | vm_compute; reflexivity].
Defined.

End Consumer.
