(* ===== verification/ConsumerSpec.v ===== *)
(** * What a consumer promises: sequential reading of its reader's contents

    A client that reads a consumer in a loop with a [k]-byte buffer until
    [Read] returns an error ([drain], with fuel) terminates, with
    [io.EOF], after delivering exactly the bytes from the cursor to the
    end; [Rewind] replays them.  The abstract stream [Stream] (contents,
    position, closed flag) and the simulation [refines] show that every
    method of the consumer behaves as the corresponding operation on the
    stream, one call at a time and along whole runs ([arun]).  Everything
    is proved against [SizeReaderAtOk]; the witnesses run the byte view,
    and an example the string view. *)

From S2P Require Import Prelude GoRuntime ReaderAt BytesView StringsView Consumer.
Import Consumer.

(** ** A client: read until an error *)

Section Drain.
Context {R : Type} `{SizeReaderAt R} `{MaybeCloser R}.

(** Read with a fresh [k]-byte buffer until [Read] returns a non-nil
    error; collect [p[:n]] of each call.  [Ret None] when the fuel runs
    out; a panic of [Read] ends the loop. *)
Fixpoint drain (fuel k : nat) (c : Consumer R)
  : go (option (Consumer R * list byte * option error)) :=
  match fuel with
  | O => Ret None
  | S f =>
      '(c', res) ← Read c (replicate k x00);
      let got := take (Z.to_nat (rd_n res)) (rd_buf res) in
      match rd_err res with
      | Some e => Ret (Some (c', got, Some e))
      | None =>
          more ← drain f k c';
          match more with
          | Some (c'', rest, e) => Ret (Some (c'', got ++ rest, e))
          | None => Ret None
          end
      end
  end.
End Drain.

Section DrainTheory.
Context {R : Type} `{SizeReaderAt R} `{MaybeCloser R} `{!SizeReaderAtOk R}.

(** One read of a [k]-byte buffer, [k > 0], on an open consumer in the
    invariant returns, and either the buffer fits before the end ([nil],
    the cursor advances by [k]) or the read reaches the end ([io.EOF],
    the cursor moves to the end); the bytes delivered are the contents
    at the cursor. *)
Lemma read_step c (k : nat) :
  inv c -> closed c = false -> (0 < k)%nat ->
  exists c' res, Read c (replicate k x00) = Ret (c', res) /\
  take (Z.to_nat (rd_n res)) (rd_buf res)
    = take (Z.to_nat (rd_n res)) (drop (Z.to_nat (i c)) (Contents (r c))) /\
  r c' = r c /\ limit c' = limit c /\ closed c' = false /\ inv c' /\
  ((rd_err res = None /\ rd_n res = Z.of_nat k /\ i c' = i c + Z.of_nat k /\ i c + Z.of_nat k <= limit c)
   \/ (rd_err res = Some EOF /\ rd_n res = limit c - i c /\ i c' = limit c)).
Proof.
  intros Hinv Hc Hk. pose proof (inv_size c Hinv) as Hl.
  pose proof (inv_read c (replicate k x00) Hinv) as Hinv'.
  destruct (Read_open_ret c (replicate k x00) Hinv Hc) as (res & Hs & E).
  rewrite E in Hinv'. do 2 eexists. split; [exact E|].
  destruct Hinv as (Hi & _ & _).
  split; [apply (spec_data _ _ _ _ Hs); lia|].
  do 4 (split; [first [reflexivity | exact Hinv']|]).
  destruct Hs as [pkg Hinv''| Hp _ | ? ? ? | ? ?]; simpl; rewrite ?length_replicate in *.
  - absurd_arith.
  - destruct k; [lia|discriminate].
  - left. repeat split; lia.
  - right. repeat split; lia.
Qed.

Lemma take_drop_concat (d : list byte) (a k : nat) :
  take k (drop a d) ++ drop (a + k) d = drop a d.
Proof. rewrite <- drop_drop, take_drop. reflexivity. Qed.

Lemma drain_to_end fuel k c :
  inv c -> closed c = false -> (0 < k)%nat ->
  limit c - i c < Z.of_nat fuel * Z.of_nat k ->
  drain fuel k c =
    Ret (Some (mkConsumer (r c) (limit c) (limit c) false,
               drop (Z.to_nat (i c)) (Contents (r c)), Some EOF)).
Proof.
  revert c. induction fuel as [|fuel IH]; intros c Hinv Hc Hk Hfuel;
    [destruct Hinv as (? & _); lia|].
  pose proof (inv_size c Hinv) as Hl.
  destruct (read_step c k Hinv Hc Hk) as (c' & res & E & Hdata & Hr & Hlim & Hcl & Hinv' & Hcase).
  simpl. rewrite E. simpl.
  destruct Hcase as [(Herr & Hn & Hi & Hfit)|(Herr & Hn & Hi)]; rewrite Herr.
  - rewrite (IH c') by (auto; lia). simpl.
    rewrite Hr, Hlim, Hi, Hdata, Hn, Nat2Z.id.
    replace (Z.to_nat (i c + Z.of_nat k)) with (Z.to_nat (i c) + k)%nat
      by (destruct Hinv as (? & _); lia).
    rewrite take_drop_concat. reflexivity.
  - rewrite Hdata, Hn. destruct c' as [r' i' l' cl']; simpl in *; subst.
    rewrite take_ge by (destruct Hinv as (? & _); rewrite length_drop; lia).
    reflexivity.
Qed.

(** (C2) Termination and contents: on an open consumer in the
    invariant, reading with a [k]-byte buffer ([k > 0]) and
    [fuel * k > limit - i] stops after at most [fuel] reads, with
    [io.EOF], having delivered exactly the contents from the cursor to
    the end, and leaves the cursor at the end. *)
Theorem drain_all fuel k c :
  inv c -> closed c = false -> (0 < k)%nat ->
  limit c - i c < Z.of_nat fuel * Z.of_nat k ->
  drain fuel k c =
    Ret (Some (mkConsumer (r c) (limit c) (limit c) false,
               drop (Z.to_nat (i c)) (Contents (r c)), Some EOF)).
Proof. apply drain_to_end. Qed.

(** (C17) A fresh consumer, drained, delivers the whole contents of its
    reader; after [Rewind], draining again delivers the same bytes and
    ends in the same state. *)
Theorem drain_rewind_replays src fuel k :
  Consumer.fits src -> (0 < k)%nat ->
  ReaderAt.Size src < Z.of_nat fuel * Z.of_nat k ->
  exists c1,
    drain fuel k (NewConsumer src) = Ret (Some (c1, Contents src, Some EOF)) /\
    drain fuel k (Rewind c1) = Ret (Some (c1, Contents src, Some EOF)).
Proof.
  intros Hf Hk Hfuel. pose proof (inv_new src Hf) as Hinv.
  eexists. rewrite drain_to_end by (simpl; auto; lia). split; [reflexivity|].
  rewrite drain_to_end.
  - reflexivity.
  - destruct Hinv as (? & ? & ?). unfold inv; simpl in *. lia.
  - reflexivity.
  - exact Hk.
  - simpl. lia.
Qed.

(** (C20) [Reset] rebinds any consumer, even a closed one: draining it
    afterwards delivers exactly the new reader's contents and ends with
    [io.EOF]. *)
Theorem Reset_then_drain c src fuel k :
  Consumer.fits src -> (0 < k)%nat ->
  ReaderAt.Size src < Z.of_nat fuel * Z.of_nat k ->
  drain fuel k (Reset c src)
  = Ret (Some (mkConsumer src (ReaderAt.Size src) (ReaderAt.Size src) false, Contents src, Some EOF)).
Proof.
  intros Hf Hk Hfuel. rewrite drain_to_end; try reflexivity; try assumption.
  - exact (inv_new src Hf).
  - simpl. lia.
Qed.

End DrainTheory.

(** ** The abstract stream *)

(** What the spec (section 4.2) says a consumer is: the contents it
  reads, a position in them, and whether it is closed. *)
Record Stream := mkStream { sdata : list byte; spos : nat; sclosed : bool }.

(** A read of [p]: [n = min(len(p), remaining)] bytes are delivered at the
  front of [p]; the end of data is signalled when fewer bytes than
  asked for were left, or when nothing was asked for at the end. *)
Definition sread (st : Stream) (p : list byte) : Stream * ReadResult :=
if sclosed st then (st, mkRead p 0 (Some ErrClosed))
else
  let rest := drop (spos st) (sdata st) in
  let n := Nat.min (length p) (length rest) in
  let eof := Nat.ltb n (length p) || (Nat.eqb (length p) 0 && Nat.eqb (length rest) 0) in
  (mkStream (sdata st) (spos st + n) false,
   mkRead (take n rest ++ drop n p) (Z.of_nat n) (if eof then Some EOF else None)).

(** The operations on the stream; [AClose e] closes it where closing the
  underlying resource reports [e]. *)
Inductive AOp :=
| ARead (p : list byte)
| AReset (d : list byte)
| ASize
| ARewind
| AClose (e : option error).

Definition astep (st : Stream) (op : AOp) : Stream * Out :=
match op with
| ARead p => let '(st', res) := sread st p in (st', OutRead res)
| AReset d => (mkStream d 0 false, OutUnit)
| ASize => (st, OutSize (len (sdata st)))
| ARewind => (mkStream (sdata st) 0 (sclosed st), OutUnit)
| AClose e =>
    if sclosed st then (st, OutClose (Some ErrClosed))
    else (mkStream (sdata st) (spos st) true, OutClose e)
end.

(** Any result allowed by the contract at the stream's position is the
  stream's read. *)
Lemma sread_of_spec st p res :
sclosed st = false -> (spos st <= length (sdata st))%nat ->
ReadAtSpec (sdata st) p (Z.of_nat (spos st)) res -> res = snd (sread st p).
Proof.
intros Hc Hpos Hs. unfold sread. rewrite Hc. simpl.
destruct Hs as [pkg Hinv|Hp Hend|H0 Hfit Hlt|Hoff Hshort].
- lia.
- subst p. assert (spos st = length (sdata st)) as -> by lia.
  rewrite drop_all. reflexivity.
- rewrite Nat.min_l by (rewrite length_drop; lia).
  rewrite drop_all, app_nil_r, Nat2Z.id.
  destruct (Nat.ltb_spec (length p) (length p)); [lia|].
  destruct (Nat.eqb_spec (length (drop (spos st) (sdata st))) 0);
    [rewrite length_drop in *; lia|].
  rewrite andb_false_r. reflexivity.
- rewrite length_drop, Nat.min_r by lia.
  rewrite take_ge by (rewrite length_drop; lia).
  replace (Z.to_nat (len (sdata st) - Z.of_nat (spos st))) with (length (sdata st) - spos st)%nat by lia.
  replace (len (sdata st) - Z.of_nat (spos st)) with (Z.of_nat (length (sdata st) - spos st)) by lia.
  rewrite Nat2Z.id.
  destruct (Nat.ltb_spec (length (sdata st) - spos st) (length p)); [reflexivity|lia].
Qed.

Section Refinement.
Context {R : Type} `{SizeReaderAt R} `{MaybeCloser R} `{!SizeReaderAtOk R}.

(** The abstract operation a method call performs. *)
Definition abs_op (c : Consumer R) (op : Op R) : AOp :=
  match op with
  | OpRead p => ARead p
  | OpReset src => AReset (Contents src)
  | OpSize => ASize
  | OpRewind => ARewind
  | OpClose => AClose (match as_closer (r c) with None => None | Some (_, e) => e end)
  end.

(** The simulation relation: cursor, size and flag agree, and while the
    consumer is open its reader holds the stream's contents. *)
Definition refines (c : Consumer R) (st : Stream) : Prop :=
  inv c /\ i c = Z.of_nat (spos st) /\ limit c = len (sdata st) /\
  closed c = sclosed st /\ (sclosed st = false -> Contents (r c) = sdata st).

Lemma refines_new src : fits src -> refines (NewConsumer src) (mkStream (Contents src) 0 false).
Proof.
  intros Hf. pose proof (Size_Contents src) as Hs.
  split; [exact (inv_new src Hf)|]. simpl. repeat split; auto.
Qed.

Lemma refines_read c st p :
  refines c st ->
  go_spec (fun '(c', res) => res = snd (sread st p) /\ refines c' (fst (sread st p))) (Read c p).
Proof.
  intros (Hinv & Hi & Hl & Hc & Hd). destruct (closed c) eqn:Hcl.
  - rewrite Read_closed_result by exact Hcl. unfold sread. rewrite <- Hc. simpl.
    split; [reflexivity|]. exact (conj Hinv (conj Hi (conj Hl (conj (eq_trans Hcl Hc) Hd)))).
  - pose proof (inv_read c p Hinv) as Hinv'.
    destruct (Read_open_ret c p Hinv Hcl) as (res & Hs & E). rewrite E in Hinv' |- *.
    simpl in Hinv' |- *.
    assert (spos st <= length (sdata st))%nat as Hpos by (destruct Hinv as (? & ? & ?); lia).
    rewrite Hd in Hs by congruence. rewrite Hi in Hs, Hinv' |- *.
    pose proof (sread_of_spec st p _ (eq_sym Hc) Hpos Hs) as Heq.
    rewrite Heq in Hinv' |- *. split; [reflexivity|].
    unfold sread in Hinv' |- *. rewrite <- Hc in Hinv' |- *. simpl in Hinv' |- *.
    refine (conj Hinv' (conj _ (conj Hl (conj eq_refl (fun _ => Hd (eq_sym Hc)))))).
    simpl. lia.
Qed.

Lemma refines_step c st op :
  refines c st -> op_ok op ->
  go_spec (fun '(c', o) => o = snd (astep st (abs_op c op)) /\
                           refines c' (fst (astep st (abs_op c op)))) (step c op).
Proof.
  intros Hrel Hok. pose proof Hrel as (Hinv & Hi & Hl & Hc & Hd).
  pose proof (inv_step c op Hinv Hok) as Hinv'.
  destruct op as [p|src| | |]; simpl in Hinv' |- *.
  - apply (go_spec_bind _ _ _ _ (refines_read c st p Hrel)).
    intros [c' res] [Ho Hr]. simpl. destruct (sread st p). simpl in *. subst. auto.
  - split; [reflexivity|]. exact (refines_new src Hok).
  - split; [unfold Size; rewrite Hl; reflexivity|exact Hrel].
  - split; [reflexivity|]. exact (conj Hinv' (conj eq_refl (conj Hl (conj Hc Hd)))).
  - unfold Close in Hinv' |- *. rewrite <- Hc.
    destruct (closed c) eqn:Hcl; [split; [reflexivity|exact Hrel]|].
    destruct (as_closer (r c)) as [[r' e]|]; simpl in *;
      (split; [reflexivity|]);
      refine (conj Hinv' (conj Hi (conj Hl (conj eq_refl _)))); discriminate.
Qed.

(** (C1) Refinement: every method call on a consumer related to a
    stream returns, without panicking, the output of the corresponding
    stream operation, and leaves the two related again. *)
Theorem consumer_refines_stream c st op :
  refines c st -> op_ok op ->
  go_spec (fun '(c', o) => o = snd (astep st (abs_op c op)) /\
                           refines c' (fst (astep st (abs_op c op)))) (step c op).
Proof. apply refines_step. Qed.

(** The abstract run of a sequence of stream operations. *)
Fixpoint arun (st : Stream) (aops : list AOp) : Stream * list Out :=
  match aops with
  | [] => (st, [])
  | a :: aops' =>
      let '(st1, o) := astep st a in
      let '(st2, os) := arun st1 aops' in
      (st2, o :: os)
  end.

(** The stream operation of the same kind as a method call: reads of
    the same buffer, resets to the new reader's contents; a close may
    report any error of the underlying reader. *)
Definition same_op (op : Op R) (a : AOp) : Prop :=
  match op, a with
  | OpRead p, ARead p' => p = p'
  | OpReset src, AReset d => d = Contents src
  | OpSize, ASize | OpRewind, ARewind => True
  | OpClose, AClose _ => True
  | _, _ => False
  end.

Lemma same_op_abs c op : same_op op (abs_op c op).
Proof. destruct op; simpl; auto. Qed.

Lemma refines_run c st ops :
  refines c st -> Forall op_ok ops ->
  exists aops, Forall2 same_op ops aops /\
    go_spec (fun '(c', os) => os = snd (arun st aops) /\ refines c' (fst (arun st aops)))
            (run c ops).
Proof.
  intros Hrel Hok. revert c st Hrel.
  induction Hok as [|op ops' Hop _ IH]; intros c st Hrel; [exists []; split; [constructor|simpl; auto]|].
  pose proof (refines_step c st op Hrel Hop) as Hs. simpl.
  destruct (step c op) as [[c1 o]|msg]; [|contradiction]. destruct Hs as [Ho Hr1].
  destruct (IH c1 _ Hr1) as (aops & Hsame & Hrun).
  exists (abs_op c op :: aops). split; [constructor; auto using same_op_abs|].
  simpl. destruct (astep st (abs_op c op)) as [st1 o1]. simpl in *.
  destruct (run c1 ops') as [[c2 os]|msg]; [|contradiction]. simpl in *.
  destruct (arun st1 aops). simpl in *. destruct Hrun. subst. auto.
Qed.

(** (C22) Refinement of whole runs: for any sequence of method calls on
    a consumer related to a stream, there are stream operations of the
    same kinds, in the same order, whose run gives the same outputs;
    the consumer never panics, and the final states are related. *)
Theorem consumer_run_refines_stream c st ops :
  refines c st -> Forall op_ok ops ->
  exists aops, Forall2 same_op ops aops /\
    go_spec (fun '(c', os) => os = snd (arun st aops) /\ refines c' (fst (arun st aops)))
            (run c ops).
Proof. apply refines_run. Qed.
End Refinement.

(** ** The theorems on a consumer of the byte view [[1; 2; 3; 4; 5]] *)

Local Ltac solve_demo :=
  unfold refines, inv, fits; vm_compute;
  repeat split; (discriminate || reflexivity || (intros; reflexivity) || (repeat constructor)).

Lemma drain_all_witness :
  drain 3 2 (NewConsumer demo)
  = Ret (Some (mkConsumer demo 5 5 false, [x01; x02; x03; x04; x05], Some EOF)).
Proof. rewrite drain_all by solve_demo. reflexivity. Defined.

Lemma drain_rewind_replays_witness :
  exists c1,
    drain 3 2 (NewConsumer demo) = Ret (Some (c1, Contents demo, Some EOF)) /\
    drain 3 2 (Rewind c1) = Ret (Some (c1, Contents demo, Some EOF)).
Proof. apply (drain_rewind_replays demo 3 2); solve_demo. Defined.

Lemma Reset_then_drain_witness :
  drain 3 2 (Reset (mkConsumer demo 3 5 true) demo)
  = Ret (Some (mkConsumer demo (ReaderAt.Size demo) (ReaderAt.Size demo) false, Contents demo, Some EOF)).
Proof. apply Reset_then_drain; solve_demo. Defined.

Lemma consumer_refines_stream_witness :
  let c := NewConsumer demo in
  let st := mkStream [x01; x02; x03; x04; x05] 0 false in
  go_spec (fun '(c', o) => o = snd (astep st (abs_op c (OpRead [x00; x00]))) /\
                           refines c' (fst (astep st (abs_op c (OpRead [x00; x00])))))
          (step c (OpRead [x00; x00])).
Proof. intros c st. apply consumer_refines_stream; [solve_demo | exact I]. Defined.

Lemma consumer_run_refines_stream_witness :
  exists aops,
    Forall2 (same_op (R:=BytesView.View)) [OpRead [x00; x00]; OpRewind; OpClose; OpRead [x00]] aops /\
    go_spec (fun '(c', os) =>
               os = snd (arun (mkStream [x01; x02; x03; x04; x05] 0 false) aops) /\
               refines c' (fst (arun (mkStream [x01; x02; x03; x04; x05] 0 false) aops)))
            (run (NewConsumer demo) [OpRead [x00; x00]; OpRewind; OpClose; OpRead [x00]]).
Proof. apply consumer_run_refines_stream; [solve_demo | repeat constructor]. Defined.

(** The same loop over a consumer of the string view ["abc"]: the
    theorems apply to any reader that meets the contract. *)
Example drain_strings_view :
  let v := StringsView.NewView (String.string_of_list_byte [x61; x62; x63]) in
  drain 2 2 (NewConsumer v) = Ret (Some (mkConsumer v 3 3 false, [x61; x62; x63], Some EOF)).
Proof. intros v. rewrite drain_to_end by solve_demo. reflexivity. Qed.
