(* ===== verification/Concurrency.v ===== *)
(** * Goroutines calling [Read]: spec section 5

    The spec guarantees that views are safe for concurrent reads and that
    a [Consumer] is not: "position and closed are mutated on every
    read ... callers must serialize access".  To state what goes wrong,
    [Read] of [src/consumer.go] is cut into the steps a goroutine
    executes one at a time, statement by statement ([tstep] over the
    program points [Pc]): the test of [c.closed], the call
    [c.r.ReadAt(p, c.i)] (which reads the field [c.i]), and the
    non-atomic [c.i += int64(n)], a load of [c.i] followed by a store.
    A scheduler interleaves the steps of several goroutines ([gexec] over
    a schedule, a list of goroutine indices; [exec] for goroutines that
    call [Read]).

    - Two [Read]s in lockstep both read at the same offset, and the
      second store overwrites the first: one cursor update is lost
      ([race_lockstep_reads]).
    - Two [Read]s that both call [ReadAt] before either updates the
      cursor add both counts to it, which can push it past the limit,
      after which every [Read] fails with an invalid-offset error
      ([race_past_limit]).
    - Whatever the schedule, racing [Read]s keep the cursor between its
      start and the start plus the total size of their buffers, without
      wrap-around, and change no other field
      ([racing_reads_cursor_bounds], an invariant over every step of
      every goroutine).
    - The other methods' statements and their races are in
      [Goroutines].

    The views are immutable values, so sharing a view by pointer and
    copying it are the same in this model; the caller's promise not to
    modify the backing slice ("consider b read-only") is what makes it
    so. *)

From S2P Require Import Prelude GoRuntime ReaderAt BytesView Consumer.
From Stdlib Require String.
Import Consumer.

(** Where a goroutine executing [n, err := c.Read(p)] stands. *)
Inductive Pc :=
| PcCheck                              (** [if c.closed { return 0, errClosed }] *)
| PcCall                               (** [n, err = c.r.ReadAt(p, c.i)] *)
| PcLoad (res : ReadResult)            (** [c.i += int64(n)]: load [c.i] *)
| PcStore (res : ReadResult) (i0 : Z)  (** [c.i += int64(n)]: store [i0 + n] *)
| PcRet (res : ReadResult)             (** [return n, err] *)
| PcPanic (msg : String.string).       (** the call panicked *)

(** A goroutine: its buffer [p] and where it stands. *)
Record Thread := mkThread { t_buf : list byte; t_pc : Pc }.

(** ** A scheduler

    A pool of goroutines, each running its own program on one shared
    state: a scheduler step runs one step of the goroutine it picks, and
    does nothing when that goroutine has finished or does not exist. *)
Section Scheduler.
Context {St P : Type} (step : St -> P -> option (St * P)).

Definition gsched_step (s : St) (ps : list P) (t : nat) : St * list P :=
  match ps !! t with
  | Some pc => match step s pc with Some (s', pc') => (s', <[t := pc']> ps) | None => (s, ps) end
  | None => (s, ps)
  end.

(** A schedule: the goroutine that runs at each step, in order. *)
Fixpoint gexec (s : St) (ps : list P) (sched : list nat) : St * list P :=
  match sched with
  | [] => (s, ps)
  | t :: sc => let '(s', ps') := gsched_step s ps t in gexec s' ps' sc
  end.

End Scheduler.

Section Statements.
Context {R : Type} `{SizeReaderAt R} `{MaybeCloser R}.

(** One step of the goroutine on the shared consumer [c]; [None] once it
    has returned or panicked.  The store writes the field [i] only: the
    other fields are those of [c] at the time of the store. *)
Definition tstep (c : Consumer R) (p : list byte) (pc : Pc) : option (Consumer R * Pc) :=
  match pc with
  | PcCheck => Some (c, if closed c then PcRet (mkRead p 0 (Some errClosed)) else PcCall)
  | PcCall =>
      Some (c, match ReadAt (r c) p (i c) with Ret res => PcLoad res | Panic msg => PcPanic msg end)
  | PcLoad res => Some (c, PcStore res (i c))
  | PcStore res i0 =>
      Some (mkConsumer (r c) (int64_wrap (i0 + rd_n res)) (limit c) (closed c), PcRet res)
  | PcRet _ | PcPanic _ => None
  end.

(** A goroutine running [Read] on its buffer. *)
Definition thread_step (c : Consumer R) (th : Thread) : option (Consumer R * Thread) :=
  match tstep c (t_buf th) (t_pc th) with
  | Some (c', pc') => Some (c', mkThread (t_buf th) pc')
  | None => None
  end.

(** The scheduler runs one step of goroutine [t], if there is one. *)
Definition sched_step (c : Consumer R) (ts : list Thread) (t : nat) : Consumer R * list Thread :=
  gsched_step thread_step c ts t.

(** Goroutines running [Read] on one consumer, under a schedule. *)
Definition exec (c : Consumer R) (ts : list Thread) (sched : list nat) : Consumer R * list Thread :=
  gexec thread_step c ts sched.

(** Goroutines about to call [Read] on their buffers. *)
Definition start (ps : list (list byte)) : list Thread := map (fun p => mkThread p PcCheck) ps.

End Statements.

(** ** Two racing [Read]s *)

Section Races.
Context {R : Type} `{SizeReaderAt R} `{MaybeCloser R}.

(** Run a fixed schedule on a symbolic consumer: reduce, then use the
    facts about [closed c] and the [ReadAt] calls as the steps need them. *)
Local Ltac run_sched Hc E1 E2 :=
  unfold exec; cbn; rewrite ?Hc; cbn; rewrite ?E1, ?E2; cbn; rewrite ?Hc; reflexivity.

(** (C25) Lost update: two goroutines calling [Read] on one open consumer
    in lockstep both call [ReadAt] at the same offset [c.i], so they get
    the same bytes when their buffers have the same length, and both
    load the old [c.i] before either stores: the cursor ends advanced by
    the second count only, the first update is lost. *)
Theorem race_lockstep_reads c p1 p2 res1 res2 :
  closed c = false ->
  ReadAt (r c) p1 (i c) = Ret res1 -> ReadAt (r c) p2 (i c) = Ret res2 ->
  exec c (start [p1; p2]) [0; 1; 0; 1; 0; 1; 0; 1]%nat
  = (mkConsumer (r c) (int64_wrap (i c + rd_n res2)) (limit c) false,
     [mkThread p1 (PcRet res1); mkThread p2 (PcRet res2)]).
Proof. intros Hc E1 E2. run_sched Hc E1 E2. Qed.

Lemma race_sum_schedule c p1 p2 res1 res2 :
  closed c = false ->
  ReadAt (r c) p1 (i c) = Ret res1 -> ReadAt (r c) p2 (i c) = Ret res2 ->
  exec c (start [p1; p2]) [0; 1; 0; 1; 0; 0; 1; 1]%nat
  = (mkConsumer (r c) (int64_wrap (int64_wrap (i c + rd_n res1) + rd_n res2)) (limit c) false,
     [mkThread p1 (PcRet res1); mkThread p2 (PcRet res2)]).
Proof. intros Hc E1 E2. run_sched Hc E1 E2. Qed.

End Races.

Section RacesOk.
Context {R : Type} `{SizeReaderAt R} `{MaybeCloser R} `{!SizeReaderAtOk R}.

(** (C26) Cursor past the limit: two goroutines that both call [ReadAt]
    at the cursor of a consumer in the invariant before either updates
    it each add their count to the cursor.  When the two counts together
    exceed what was left, the cursor ends past [limit], outside the
    invariant, and from then on [Read] fails with the reader's
    invalid-offset error instead of [io.EOF], leaving the cursor there. *)
Theorem race_past_limit c p1 p2 p res1 res2 :
  inv c -> closed c = false ->
  ReadAt (r c) p1 (i c) = Ret res1 -> ReadAt (r c) p2 (i c) = Ret res2 ->
  limit c < i c + rd_n res1 + rd_n res2 <= int64_max ->
  let '(c', _) := exec c (start [p1; p2]) [0; 1; 0; 1; 0; 0; 1; 1]%nat in
  i c' = i c + rd_n res1 + rd_n res2 /\
  exists pkg, Read c' p = Ret (c', mkRead p 0 (Some (ErrInvalidOffset pkg))).
Proof.
  intros Hinv Hc E1 E2 Hn. rewrite (race_sum_schedule c p1 p2 res1 res2 Hc E1 E2).
  pose proof (read_n_range c p1 res1 Hinv (ReadAt_ret_spec _ _ _ _ E1)).
  pose proof (read_n_range c p2 res2 Hinv (ReadAt_ret_spec _ _ _ _ E2)).
  pose proof (inv_size c Hinv) as Hl. destruct Hinv as (Hi & _).
  rewrite (int64_wrap_small (i c + rd_n res1)), int64_wrap_small
    by (unfold in_int64, int64_min; lia).
  split; [reflexivity|].
  unfold Read. simpl.
  destruct (ReadAt_ret (r c) p (i c + rd_n res1 + rd_n res2)) as (res & E & Hs).
  rewrite E. simpl.
  destruct Hs as [pkg _| _ ? | ? ? ? | ? ?]; [|lia..].
  exists pkg. simpl. rewrite Z.add_0_r, int64_wrap_small by (unfold in_int64, int64_min; lia).
  reflexivity.
Qed.

End RacesOk.

(** ** The cursor under any schedule of racing [Read]s *)

(** A goroutine that has returned (or panicked) will not store again. *)
Definition finished (pc : Pc) : bool :=
  match pc with PcRet _ | PcPanic _ => true | _ => false end.

(** The buffer space of a goroutine that may still store to [c.i]. *)
Definition pending (th : Thread) : Z := if finished (t_pc th) then 0 else len (t_buf th).

Definition pending_total (ts : list Thread) : Z := foldr (fun th acc => pending th + acc) 0 ts.

(** The total size of the goroutines' buffers. *)
Definition buf_total (ps : list (list byte)) : Z := foldr (fun p acc => len p + acc) 0 ps.

(** What a goroutine between its [ReadAt] and its store knows: the count
    it got is in [[0, len(p)]], and the cursor it loaded is at least [lo]
    and leaves room, below [B], for every goroutine still to store. *)
Definition thread_ok (lo B S : Z) (th : Thread) : Prop :=
  match t_pc th with
  | PcLoad res => 0 <= rd_n res <= len (t_buf th)
  | PcStore res i0 => 0 <= rd_n res <= len (t_buf th) /\ lo <= i0 /\ i0 + S <= B
  | _ => True
  end.

Section Bounds.
Context {R : Type} `{SizeReaderAt R} `{MaybeCloser R} `{!SizeReaderAtOk R}.

(** The invariant of a pool of [Read] goroutines on one consumer. *)
Definition race_inv (lo B : Z) (c0 c : Consumer R) (ts : list Thread) : Prop :=
  lo <= i c /\ i c + pending_total ts <= B /\
  r c = r c0 /\ limit c = limit c0 /\ closed c = closed c0 /\
  Forall (thread_ok lo B (pending_total ts)) ts.

Lemma pending_nonneg th : 0 <= pending th.
Proof. unfold pending. destruct (finished _); lia. Qed.

Lemma pending_total_nonneg ts : 0 <= pending_total ts.
Proof. induction ts as [|th ts IH]; simpl; [lia|]. pose proof (pending_nonneg th). lia. Qed.

Lemma pending_total_insert ts t x y :
  ts !! t = Some y ->
  pending_total (<[t := x]> ts) = pending_total ts - pending y + pending x.
Proof.
  revert t. induction ts as [|th ts IH]; intros [|t] Ht; simpl in *; try discriminate.
  - injection Ht as ->. lia.
  - rewrite (IH t Ht). lia.
Qed.

Lemma thread_ok_mono lo B S S' th : S' <= S -> thread_ok lo B S th -> thread_ok lo B S' th.
Proof. unfold thread_ok. destruct (t_pc th); intuition lia. Qed.

Lemma Forall_thread_ok_mono lo B S S' ts :
  S' <= S -> Forall (thread_ok lo B S) ts -> Forall (thread_ok lo B S') ts.
Proof.
  intros HS Hall. induction Hall; constructor; [|assumption].
  apply (thread_ok_mono lo B S); assumption.
Qed.

Lemma pending_total_start ps : pending_total (start ps) = buf_total ps.
Proof. induction ps as [|p ps IH]; simpl; [reflexivity|]. rewrite IH. reflexivity. Qed.

(** A step that leaves the consumer as it is and does not increase what
    the goroutine may still store keeps the invariant. *)
Lemma race_inv_same lo B c0 c ts t p pc pc' :
  ts !! t = Some (mkThread p pc) ->
  pending (mkThread p pc') <= pending (mkThread p pc) ->
  thread_ok lo B (pending_total (<[t := mkThread p pc']> ts)) (mkThread p pc') ->
  race_inv lo B c0 c ts -> race_inv lo B c0 c (<[t := mkThread p pc']> ts).
Proof.
  intros Ht Hp Hok (Hi & Hs & Hr & Hl & Hc & Hall).
  pose proof (pending_total_insert ts t (mkThread p pc') _ Ht) as HS.
  repeat split; try assumption; [lia|].
  apply Forall_insert; [|exact Hok].
  apply (Forall_thread_ok_mono lo B (pending_total ts)); [lia|exact Hall].
Qed.

Lemma race_inv_step lo B c0 c ts t :
  0 <= lo -> B <= int64_max -> race_inv lo B c0 c ts ->
  let '(c', ts') := sched_step c ts t in race_inv lo B c0 c' ts'.
Proof.
  intros Hlo HB Hinv. unfold sched_step, gsched_step.
  destruct (ts !! t) as [[p pc]|] eqn:Ht; [|exact Hinv].
  pose proof (proj1 (Forall_lookup _ _) (proj2 (proj2 (proj2 (proj2 (proj2 Hinv))))) t _ Ht) as Hth.
  unfold thread_ok in Hth. unfold thread_step. simpl.
  destruct pc as [| |res|res i0|res|msg]; simpl in Hth |- *.
  - apply (race_inv_same _ _ _ _ _ _ _ PcCheck); try assumption.
    + unfold pending. destruct (closed c); simpl; lia.
    + destruct (closed c); exact I.
  - destruct (ReadAt_ret (r c) p (i c)) as (res & -> & Hsp).
    apply (race_inv_same _ _ _ _ _ _ _ PcCall); try assumption; [reflexivity|].
    exact (spec_n_range _ _ _ _ Hsp).
  - pose proof Hinv as (Hi & Hs & _).
    apply (race_inv_same _ _ _ _ _ _ _ (PcLoad res)); [exact Ht|reflexivity| |exact Hinv].
    rewrite (pending_total_insert ts t _ _ Ht). unfold thread_ok, pending; simpl. repeat split; lia.
  - destruct Hinv as (Hi & Hs & Hr & Hl & Hc & Hall). destruct Hth as (Hn & Hlo0 & Hs0).
    pose proof (pending_total_insert ts t (mkThread p (PcRet res)) _ Ht) as HS.
    pose proof (pending_total_nonneg (<[t := mkThread p (PcRet res)]> ts)).
    unfold pending in HS; simpl in HS.
    rewrite int64_wrap_small by (unfold in_int64, int64_min; lia).
    repeat split; simpl; try assumption; try lia.
    apply Forall_insert; [|exact I].
    apply (Forall_thread_ok_mono lo B (pending_total ts)); [lia|exact Hall].
  - exact Hinv.
  - exact Hinv.
Qed.

Lemma race_inv_exec lo B c0 c ts sched :
  0 <= lo -> B <= int64_max -> race_inv lo B c0 c ts ->
  let '(c', ts') := exec c ts sched in race_inv lo B c0 c' ts'.
Proof.
  intros Hlo HB. unfold exec. revert c ts.
  induction sched as [|t sched IH]; intros c ts Hinv; [exact Hinv|]. simpl.
  pose proof (race_inv_step lo B c0 c ts t Hlo HB Hinv) as Hs.
  unfold sched_step in Hs. destruct (gsched_step thread_step c ts t). exact (IH _ _ Hs).
Qed.

(** (C27) Bounds under any interleaving: however goroutines calling
    [Read] on one consumer are scheduled, racing or not, the cursor ends
    between where it started and that plus the total size of their
    buffers, without [int64] wrap-around, and the reader, the limit and
    the closed flag are unchanged.  Lost updates (C25) and over-counting
    (C26) stay within these bounds. *)
Theorem racing_reads_cursor_bounds c ps sched :
  0 <= i c -> i c + buf_total ps <= int64_max ->
  let '(c', _) := exec c (start ps) sched in
  i c <= i c' <= i c + buf_total ps /\ r c' = r c /\ limit c' = limit c /\ closed c' = closed c.
Proof.
  intros Hi HB.
  assert (race_inv (i c) (i c + buf_total ps) c c (start ps)) as Hinv.
  { unfold race_inv. rewrite pending_total_start.
    do 2 (split; [lia|]). do 3 (split; [reflexivity|]).
    unfold start. apply Forall_fmap, Forall_true. intros p. exact I. }
  pose proof (race_inv_exec _ _ c c (start ps) sched Hi HB Hinv) as Hend.
  destruct (exec c (start ps) sched) as [c' ts'].
  destruct Hend as (Hlo & Hs & Hr & Hl & Hc & _).
  pose proof (pending_total_nonneg ts'). repeat split; try assumption; lia.
Qed.

End Bounds.

(** ** The races on the byte view [[1; 2; 3; 4; 5]] *)

Local Ltac solve_concrete :=
  unfold inv, fits; vm_compute; repeat split;
  (reflexivity || discriminate || (intro; discriminate)).

Lemma race_lockstep_reads_witness :
  exec (NewConsumer demo) (start [[x00; x00]; [x00; x00]]) [0; 1; 0; 1; 0; 1; 0; 1]%nat
  = (mkConsumer (r (NewConsumer demo))
                (int64_wrap (i (NewConsumer demo) + rd_n (mkRead [x01; x02] 2 None)))
                (limit (NewConsumer demo)) false,
     [mkThread [x00; x00] (PcRet (mkRead [x01; x02] 2 None));
      mkThread [x00; x00] (PcRet (mkRead [x01; x02] 2 None))]).
Proof.
  apply (race_lockstep_reads (NewConsumer demo) [x00; x00] [x00; x00]
           (mkRead [x01; x02] 2 None) (mkRead [x01; x02] 2 None)); solve_concrete.
Defined.

Lemma race_past_limit_witness :
  let '(c', _) := exec (mkConsumer demo 3 5 false) (start [[x00; x00]; [x00; x00]])
                       [0; 1; 0; 1; 0; 0; 1; 1]%nat in
  i c' = i (mkConsumer demo 3 5 false) + rd_n (mkRead [x04; x05] 2 None)
         + rd_n (mkRead [x04; x05] 2 None) /\
  exists pkg, Read c' [x00] = Ret (c', mkRead [x00] 0 (Some (ErrInvalidOffset pkg))).
Proof.
  apply (race_past_limit (mkConsumer demo 3 5 false) [x00; x00] [x00; x00] [x00]
           (mkRead [x04; x05] 2 None) (mkRead [x04; x05] 2 None)); solve_concrete.
Defined.

Lemma racing_reads_cursor_bounds_witness :
  let '(c', _) := exec (NewConsumer demo) (start [[x00; x00]; [x00; x00; x00]])
                       [0; 1; 1; 0; 1; 0; 1; 0]%nat in
  i (NewConsumer demo) <= i c' <= i (NewConsumer demo) + buf_total [[x00; x00]; [x00; x00; x00]] /\
  r c' = r (NewConsumer demo) /\ limit c' = limit (NewConsumer demo) /\
  closed c' = closed (NewConsumer demo).
Proof. apply racing_reads_cursor_bounds; solve_concrete. Defined.
