(* ===== verification/Goroutines.v ===== *)
(** * Goroutines calling any method of one [Consumer]

    [Close], [Rewind] and [Reset] of [src/consumer.go] cut into their
    statements, as [Read] is in [Concurrency]: [Close] tests
    [c.closed], sets it, then closes the reader; [Rewind] is one store;
    [Reset] stores [c.limit], [c.r], [c.i] and [c.closed] in this order.
    A goroutine runs one method ([Goroutine], dispatched by [gostep]),
    and the scheduler [gexec] interleaves goroutines running different
    methods on one consumer.

    For every consumer, reader and buffer:
    - racing [Close]s both succeed and close the reader twice, where
      serialised the second fails ([race_double_close]);
    - a [Read] racing [Rewind] undoes the rewind ([race_read_rewind]);
    - a [Read] racing [Reset] reads the new reader at the old cursor
      ([race_read_reset]); the witness shows it failing with
      [errInvalidOffset] on a shorter reader. *)

From S2P Require Import Prelude GoRuntime ReaderAt BytesView Consumer Concurrency.
Import Consumer.

(** ** Goroutines calling [Close] *)

(** Where a goroutine executing [err := c.Close()] stands. *)
Inductive ClosePc :=
| ClCheck                     (** [if c.closed { return errClosed }] *)
| ClSet                       (** [c.closed = true] *)
| ClClose                     (** [cl, ok := c.r.(io.Closer)]; [return cl.Close()] or [nil] *)
| ClRet (e : option error).   (** returned [e] *)


Section CloseSteps.
Context {R : Type} `{SizeReaderAt R} `{MaybeCloser R}.

(** One step of [Close]; the reader's [Close] is one call. *)
Definition cstep (c : Consumer R) (pc : ClosePc) : option (Consumer R * ClosePc) :=
  match pc with
  | ClCheck => Some (c, if closed c then ClRet (Some errClosed) else ClSet)
  | ClSet => Some (mkConsumer (r c) (i c) (limit c) true, ClClose)
  | ClClose =>
      Some (match as_closer (r c) with
            | None => (c, ClRet None)
            | Some (r', e) => (mkConsumer r' (i c) (limit c) (closed c), ClRet e)
            end)
  | ClRet _ => None
  end.

End CloseSteps.

(** ** Goroutines running any method *)

(** Where a goroutine executing [c.Rewind()] stands. *)
Inductive RewindPc := RwStore | RwRet.

(** Where a goroutine executing [c.Reset(r)] stands: before each of its
    four stores, then returned. *)
Inductive ResetPc := RsLimit | RsR | RsI | RsClosed | RsRet.

Section Mixed.
Context {R : Type} `{SizeReaderAt R} `{MaybeCloser R}.

(** A goroutine and the method it runs on the shared consumer. *)
Inductive Goroutine :=
| GRead (th : Thread)
| GClose (pc : ClosePc)
| GRewind (pc : RewindPc)
| GReset (src : R) (pc : ResetPc).

(** [func (c *Consumer) Rewind() { c.i = 0 }] *)
Definition rwstep (c : Consumer R) (pc : RewindPc) : option (Consumer R * RewindPc) :=
  match pc with
  | RwStore => Some (mkConsumer (r c) 0 (limit c) (closed c), RwRet)
  | RwRet => None
  end.

(** [func (c *Consumer) Reset(r SizeReaderAt)], one field store per step,
    in the order of the source. *)
Definition rsstep (c : Consumer R) (src : R) (pc : ResetPc) : option (Consumer R * ResetPc) :=
  match pc with
  | RsLimit => Some (mkConsumer (r c) (i c) (ReaderAt.Size src) (closed c), RsR)
  | RsR => Some (mkConsumer src (i c) (limit c) (closed c), RsI)
  | RsI => Some (mkConsumer (r c) 0 (limit c) (closed c), RsClosed)
  | RsClosed => Some (mkConsumer (r c) (i c) (limit c) false, RsRet)
  | RsRet => None
  end.

(** One step of a goroutine, by the method it runs. *)
Definition gostep (c : Consumer R) (g : Goroutine) : option (Consumer R * Goroutine) :=
  match g with
  | GRead th => option_map (fun '(c', th') => (c', GRead th')) (thread_step c th)
  | GClose pc => option_map (fun '(c', pc') => (c', GClose pc')) (cstep c pc)
  | GRewind pc => option_map (fun '(c', pc') => (c', GRewind pc')) (rwstep c pc)
  | GReset src pc => option_map (fun '(c', pc') => (c', GReset src pc')) (rsstep c src pc)
  end.

End Mixed.

Arguments Goroutine R : clear implicits.

(** ** Races *)

Section Races.
Context {R : Type} `{SizeReaderAt R} `{MaybeCloser R}.

(** (C28) Racing [Close]s: "calling close on a closed stream is an error"
    holds for serialised calls only.  Two goroutines closing one open
    consumer whose reader is an [io.Closer], both testing [c.closed]
    before either sets it, both return what the reader's [Close]
    returns, and the reader is closed twice; serialised, the second
    [Close] fails with [errClosed] and the reader is closed once. *)
Theorem race_double_close c r1 e1 r2 e2 :
  closed c = false -> as_closer (r c) = Some (r1, e1) -> as_closer r1 = Some (r2, e2) ->
  gexec cstep c [ClCheck; ClCheck] [0; 1; 0; 1; 0; 1]%nat
  = (mkConsumer r2 (i c) (limit c) true, [ClRet e1; ClRet e2]) /\
  gexec cstep c [ClCheck; ClCheck] [0; 0; 0; 1; 1; 1]%nat
  = (mkConsumer r1 (i c) (limit c) true, [ClRet e1; ClRet (Some errClosed)]).
Proof. intros Hc E1 E2. split; cbn; rewrite Hc; cbn; rewrite E1; cbn; rewrite ?E2; reflexivity. Qed.


(** (C30) A [Read] racing a [Reset]: [Reset] stores [c.r] before
    [c.i = 0], so a [Read] that calls [ReadAt] in between reads the new
    reader at the old cursor, and its store then leaves the cursor at
    its count instead of 0. *)
Theorem race_read_reset c src p res :
  closed c = false -> ReadAt src p (i c) = Ret res ->
  gexec gostep c [GRead (mkThread p PcCheck); GReset src RsLimit] [1; 1; 0; 0; 1; 1; 0; 0]%nat
  = (mkConsumer src (int64_wrap (0 + rd_n res)) (ReaderAt.Size src) false,
     [GRead (mkThread p (PcRet res)); GReset src RsRet]).
Proof. intros Hc E. cbn. rewrite Hc. cbn. rewrite E. reflexivity. Qed.

End Races.

(** ** The races on concrete readers *)

(** A byte view whose [Close] counts how often it was called: an
    [io.Closer] for the witness below (no reader of the repository is
    one). *)
Record Counted := mkCounted { cnt_view : BytesView.View; closes : nat }.

#[local] Instance Counted_SizeReaderAt : SizeReaderAt Counted :=
  {| ReadAt c := BytesView.ReadAt (cnt_view c); ReaderAt.Size c := BytesView.Size (cnt_view c) |}.

#[local] Instance Counted_MaybeCloser : MaybeCloser Counted :=
  fun c => Some (mkCounted (cnt_view c) (S (closes c)), None).

Lemma race_double_close_witness :
  let c := NewConsumer (mkCounted demo 0) in
  gexec cstep c [ClCheck; ClCheck] [0; 1; 0; 1; 0; 1]%nat
  = (mkConsumer (mkCounted demo 2) (i c) (limit c) true, [ClRet None; ClRet None]) /\
  gexec cstep c [ClCheck; ClCheck] [0; 0; 0; 1; 1; 1]%nat
  = (mkConsumer (mkCounted demo 1) (i c) (limit c) true, [ClRet None; ClRet (Some errClosed)]).
Proof. intros c. apply race_double_close; reflexivity. Defined.


Lemma race_read_reset_witness :
  gexec gostep (mkConsumer demo 3 5 false)
        [GRead (mkThread [x00] PcCheck); GReset (BytesView.NewView [x09]) RsLimit]
        [1; 1; 0; 0; 1; 1; 0; 0]%nat
  = (mkConsumer (BytesView.NewView [x09])
                (int64_wrap (0 + rd_n (mkRead [x00] 0 (Some (ErrInvalidOffset PkgBytes)))))
                (ReaderAt.Size (BytesView.NewView [x09])) false,
     [GRead (mkThread [x00] (PcRet (mkRead [x00] 0 (Some (ErrInvalidOffset PkgBytes)))));
      GReset (BytesView.NewView [x09]) RsRet]).
Proof. apply race_read_reset; vm_compute; reflexivity. Defined.
